(** * The integrations manager of the agent (pkg/integrations/manager.go)

    A shallow embedding of the supervisor that reconciles a set of running
    integrations against a declarative configuration, of the per-integration
    run loop, of the projection of an integration onto a scrape
    configuration, and of the handler cache behind the metrics route.

    Conventions of the embedding:
    - a pointer [*integrationProcess] is a record that carries its address
      ([proc_addr]); the manager allocates addresses from [next_addr];
    - a Go map is a [gmap]; a [range] over it visits [map_to_list] (Go leaves
      the order unspecified, and no statement below depends on it);
    - effects (cancellations, goroutine starts, calls on the instance manager,
      log lines) are recorded, in program order, in a trace of events;
    - [util.CompareYAML] and [instance.DefaultConfig] live outside this file
      of the repository and are parameters of the development. *)

From stdpp Require Import gmap strings list fin_maps pretty.
From Stdlib Require Import ZArith Lia.

Local Open Scope Z_scope.
Local Open Scope string_scope.
Local Open Scope list_scope.

(** ** Errors *)

(** Go's [error] values this file distinguishes: [context.Canceled] and
    every other error (built by [fmt.Errorf] or returned by a collaborator). *)
Inductive error : Type :=
| context_Canceled
| errorString (msg : string).

#[global] Instance error_eq_dec : EqDecision error.
Proof. solve_decision. Defined.

(** [err.Error()]. *)
Definition error_text (e : error) : string :=
  match e with
  | context_Canceled => "context canceled"
  | errorString msg => msg
  end.

Inductive result (A : Type) : Type :=
| Ok (a : A)
| Err (e : error).
Arguments Ok {A} a.
Arguments Err {A} e.

(** ** Declarative configuration *)

(** [relabel.Config] of Prometheus, as far as this file fills it in. *)
Record relabel_Config : Type := {
  SourceLabels : list string;
  Action : string;
  Separator : string;
  Regex : string;
  Replacement : string;
  TargetLabel : string;
}.

(** [config.Common]: the settings shared by every integration. *)
Record Common : Type := {
  Enabled : bool;
  ScrapeIntegration : option bool;
  ScrapeInterval : Z;
  ScrapeTimeout : Z;
  RelabelConfigs : list relabel_Config;
  MetricRelabelConfigs : list relabel_Config;
  WALTruncateFrequency : Z;
}.

(** [config.ScrapeConfig]: a scrape target an integration declares. *)
Record ScrapeConfig : Type := {
  JobName : string;
  MetricsPath : string;
}.

(** The [Integration] interface as seen by the reconciler. Its [Run] and
    [MetricsHandler] methods act on the outside world; what they return is
    supplied to [Run] and [loadHandler] below by the caller. *)
Record Integration : Type := {
  ScrapeConfigs : list ScrapeConfig;
}.

(** The [Config] interface: [Name()], [CommonConfig()] and
    [NewIntegration(l)], the latter as its outcome (the logger it is given
    only receives log lines). [Settings] stands for the remaining
    declarative fields of the concrete configuration type. *)
Record Config : Type := {
  Name : string;
  CommonConfig : Common;
  Settings : string;
  NewIntegration : result Integration;
}.

(** [config_util.TLSConfig]. *)
Record TLSConfig_t : Type := {
  CAFile : string;
  CertFile : string;
  KeyFile : string;
  ServerName : string;
  InsecureSkipVerify : bool;
}.

Definition zero_TLSConfig : TLSConfig_t :=
  {| CAFile := ""; CertFile := ""; KeyFile := ""; ServerName := "";
     InsecureSkipVerify := false |}.

Record ManagerConfig : Type := {
  ScrapeIntegrations : bool;
  ReplaceInstanceLabel : bool;
  UseHostnameLabel : bool;
  Integrations : list Config;
  Labels : gmap string string;
  PrometheusRemoteWrite : list string;
  IntegrationRestartBackoff : Z;
  ListenPort : Z;
  ListenHost : string;
  TLSConfig : TLSConfig_t;
  ServerUsingTLS : bool;
}.

(** The zero value a fresh [Manager] holds in [cfg] before the first
    [ApplyConfig]. *)
Definition zero_ManagerConfig : ManagerConfig :=
  {| ScrapeIntegrations := false; ReplaceInstanceLabel := false;
     UseHostnameLabel := false; Integrations := []; Labels := ∅;
     PrometheusRemoteWrite := []; IntegrationRestartBackoff := 0;
     ListenPort := 0; ListenHost := ""; TLSConfig := zero_TLSConfig;
     ServerUsingTLS := false |}.

(** ** Generated scrape configuration *)

(** [discovery.StaticConfig]: one target group. *)
Record StaticConfig : Type := {
  Targets : list (gmap string string);
  TargetLabels : gmap string string;
}.

(** [config.ScrapeConfig] of Prometheus, as far as this file fills it in. *)
Record prom_ScrapeConfig : Type := {
  sc_JobName : string;
  sc_MetricsPath : string;
  sc_Scheme : string;
  sc_HonorLabels : bool;
  sc_HonorTimestamps : bool;
  sc_ScrapeInterval : Z;
  sc_ScrapeTimeout : Z;
  sc_ServiceDiscoveryConfigs : list StaticConfig;
  sc_RelabelConfigs : list relabel_Config;
  sc_MetricRelabelConfigs : list relabel_Config;
  sc_HTTPClientTLSConfig : TLSConfig_t;
}.

(** [instance.Config], as far as this file sets its fields. *)
Record instance_Config : Type := {
  inst_Name : string;
  inst_ScrapeConfigs : list prom_ScrapeConfig;
  inst_RemoteWrite : list string;
  inst_WALTruncateFrequency : Z;
}.

(** ** Go's [path] package *)

Definition slash : Ascii.ascii := Ascii.Ascii true true true true false true false false.

(** [strings.Split(s, "/")]. *)
Fixpoint split_slash (s : string) : list string :=
  match s with
  | EmptyString => [EmptyString]
  | String c rest =>
      if decide (c = slash) then EmptyString :: split_slash rest
      else match split_slash rest with
           | [] => [String c EmptyString]
           | seg :: segs => String c seg :: segs
           end
  end.

(** [strings.Join(segs, "/")]. *)
Fixpoint join_slash (segs : list string) : string :=
  match segs with
  | [] => ""
  | [seg] => seg
  | seg :: rest => seg +:+ "/" +:+ join_slash rest
  end.

(** One element of a path read by [path.Clean]; [out] is the stack of
    elements written so far, the last one first. An empty element and [.]
    are dropped; [..] removes the last element written, unless there is
    none (then it is dropped on a rooted path and kept on a relative one)
    or the elements written are themselves the leading [..]s of a relative
    path. *)
Definition clean_elem (rooted : bool) (out : list string) (elem : string) : list string :=
  if decide (elem = "") then out
  else if decide (elem = ".") then out
  else if decide (elem = "..") then
    match out with
    | [] => if rooted then [] else [".."]
    | top :: below =>
        if decide (top = "..") then ".." :: out else below
    end
  else elem :: out.

(** [path.Clean]: the shortest path equivalent to [p] by purely lexical
    processing. *)
Definition path_Clean (p : string) : string :=
  match p with
  | EmptyString => "."
  | String c _ =>
      let rooted := bool_decide (c = slash) in
      let out := foldl (clean_elem rooted) [] (split_slash p) in
      let body := join_slash (rev out) in
      if rooted then "/" +:+ body
      else if decide (body = "") then "." else body
  end.

(** [path.Join]: the non-empty elements joined by slashes, then cleaned;
    the empty string when there is none. *)
Definition path_Join (elems : list string) : string :=
  match filter (λ e, e ≠ "") elems with
  | [] => ""
  | nonempty => path_Clean (join_slash nonempty)
  end.

(** ** The manager *)

(** [integrationKey]: the key of an integration, used for its instance name
    and its name in the process cache. *)
Definition integrationKey (name : string) : string :=
  "integration/" +:+ name.

(** A running integration. [proc_addr] is the identity of the pointer the
    registry and the handler cache hold; the context, its cancel function,
    the wait group and the backoff callback of the Go struct appear as the
    events [EvStop] and [EvGo] and as arguments of [Run]. *)
Record integrationProcess : Type := {
  proc_addr : nat;
  proc_cfg : Config;
  proc_i : Integration;
}.

(** [instance.Manager], as far as the manager calls it. *)
Record instance_Manager : Type := {
  im_ApplyConfig : instance_Config → option error;
  im_DeleteConfig : string → option error;
}.

(** [Manager]. [ctx_done] says that the root context has been cancelled;
    [validator] receives a pointer and may rewrite the configuration it
    validates; [next_addr] is the address the next process is allocated at. *)
Record Manager : Type := {
  cfg : ManagerConfig;
  hostname : string;
  ctx_done : bool;
  im : instance_Manager;
  validator : instance_Config → instance_Config * option error;
  integrations : gmap string integrationProcess;
  next_addr : nat;
}.

(** What [ApplyConfig] does to the outside world, in program order. *)
Inductive Event : Type :=
| EvStop (addr : nat)                            (* p.stop() *)
| EvNewIntegration (name : string) (ok : bool)   (* ic.NewIntegration(l) *)
| EvGo (key : string) (addr : nat)               (* go p.Run() *)
| EvDeleteConfig (key : string)                  (* m.im.DeleteConfig(key) *)
| EvValidate (key : string) (c : instance_Config) (ok : bool) (* m.validator(&c) *)
| EvApplyConfig (c : instance_Config) (ok : bool) (* m.im.ApplyConfig(c) *)
| EvLogError (msg : string) (integration : string).

(** The variables [ApplyConfig] updates while it runs: the registry, the
    allocator, the [failed] flag and the trace so far. *)
Record applyState : Type := {
  st_integrations : gmap string integrationProcess;
  st_next : nat;
  st_failed : bool;
  st_trace : list Event;
}.

Definition emit (st : applyState) (evs : list Event) : applyState :=
  {| st_integrations := st_integrations st; st_next := st_next st;
     st_failed := st_failed st; st_trace := st_trace st ++ evs |}.

Definition set_failed (st : applyState) : applyState :=
  {| st_integrations := st_integrations st; st_next := st_next st;
     st_failed := true; st_trace := st_trace st |}.

Definition unregister (key : string) (st : applyState) : applyState :=
  {| st_integrations := delete key (st_integrations st); st_next := st_next st;
     st_failed := st_failed st; st_trace := st_trace st |}.

(** ** The run loop of one integration *)

(** How one invocation of [p.i.Run(p.ctx)] ends: it returns an error
    ([None] for nil) or it panics with a value. *)
Inductive RunReturn : Type :=
| Returns (err : option error)
| Panics (v : string).

(** What the run loop and the backoff callback do, in program order. *)
Inductive RunEvent : Type :=
| RWgAdd                                  (* p.wg.Add(1) *)
| RWgDone                                 (* deferred p.wg.Done() *)
| RRun                                    (* p.i.Run(p.ctx) is invoked *)
| RWait (name : string) (err : error)     (* p.wait(p.cfg, err) is invoked *)
| RCounterInc (integration_name : string) (* integrationAbnormalExits...Inc() *)
| RLogAbnormal (err : error) (integration : string) (backoff : Z)
| RSleep (d : Z)                          (* time.Sleep(d) *)
| RLogStopped (integration : string)
| RLogPanic (v : string) (integration : string).

#[global] Instance RunEvent_eq_dec : EqDecision RunEvent.
Proof. solve_decision. Defined.

(** How a function body finishes before its deferred calls run. *)
Inductive Completion : Type :=
| Normal
| Panicking (v : string).

(** The condition of the [if] in the loop: [err != nil && err != context.Canceled]. *)
Definition abnormal (err : option error) : option error :=
  match err with
  | None => None
  | Some context_Canceled => None
  | Some e => Some e
  end.

(** The [for] loop of [integrationProcess.Run]. [returns] lists how the
    successive invocations of [p.i.Run] end; when the list is used up the
    invocation in progress has not returned, and the loop has no completion
    yet ([None]). *)
Fixpoint run_loop (wait : Config → error → list RunEvent) (p : integrationProcess)
    (returns : list RunReturn) : list RunEvent * option Completion :=
  match returns with
  | [] => ([RRun], None)
  | Panics v :: _ => ([RRun], Some (Panicking v))
  | Returns err :: rest =>
      match abnormal err with
      | Some e =>
          let '(tr, c) := run_loop wait p rest in
          (RRun :: RWait (Name (proc_cfg p)) e :: wait (proc_cfg p) e ++ tr, c)
      | None => ([RRun; RLogStopped (Name (proc_cfg p))], Some Normal)
      end
  end.

(** The deferred [p.wg.Done()]. *)
Definition deferred_Done (c : Completion) : list RunEvent * Completion :=
  ([RWgDone], c).

(** The deferred closure that calls [recover()]: a panic in flight is logged
    and stops there. *)
Definition deferred_recover (p : integrationProcess) (c : Completion) : list RunEvent * Completion :=
  match c with
  | Normal => ([], Normal)
  | Panicking v => ([RLogPanic v (Name (proc_cfg p))], Normal)
  end.

(** [integrationProcess.Run]: the events of the goroutine and how the
    function completes ([None] while [p.i.Run] has not returned). The
    deferred calls run last registered first. *)
Definition Run (wait : Config → error → list RunEvent) (p : integrationProcess)
    (returns : list RunReturn) : list RunEvent * option Completion :=
  match run_loop wait p returns with
  | (tr, None) => (RWgAdd :: tr, None)
  | (tr, Some c) =>
      let '(tr1, c1) := deferred_Done c in
      let '(tr2, c2) := deferred_recover p c1 in
      (RWgAdd :: tr ++ tr1 ++ tr2, Some c2)
  end.

(** [Manager.instanceBackoff], reading the manager [m]. *)
Definition instanceBackoff (m : Manager) (c : Config) (err : error) : list RunEvent :=
  [ RCounterInc (Name c);
    RLogAbnormal err (Name c) (IntegrationRestartBackoff (cfg m));
    RSleep (IntegrationRestartBackoff (cfg m)) ].

(** *** Vocabulary for statements about the run loop *)

(** An invocation of [p.i.Run] that fails: it returns an error other than
    [context.Canceled]. *)
Definition failing (msg : string) : RunReturn :=
  Returns (Some (errorString msg)).

(** What one failure adds to the trace when the callback is
    [m.instanceBackoff]: the invocation, the call of the callback, and the
    callback's increment, log line and sleep. *)
Definition backoff_block (m : Manager) (p : integrationProcess) (msg : string) : list RunEvent :=
  let name := Name (proc_cfg p) in
  let d := IntegrationRestartBackoff (cfg m) in
  [ RRun; RWait name (errorString msg); RCounterInc name;
    RLogAbnormal (errorString msg) name d; RSleep d ].

Definition is_RRun (ev : RunEvent) : bool :=
  match ev with RRun => true | _ => false end.
Definition is_RWait (ev : RunEvent) : bool :=
  match ev with RWait _ _ => true | _ => false end.
Definition is_RSleep (ev : RunEvent) : bool :=
  match ev with RSleep _ => true | _ => false end.
Definition is_RCounterInc (ev : RunEvent) : bool :=
  match ev with RCounterInc _ => true | _ => false end.

Definition count (f : RunEvent → bool) (tr : list RunEvent) : nat :=
  length (List.filter f tr).

(** ** The handler cache of [WireAPI] *)

(** The handlers the route may serve: [http.NotFoundHandler()],
    [http.HandlerFunc(internalServiceError)], or a handler an integration
    returned from [MetricsHandler()], named by its identity. *)
Inductive Handler : Type :=
| NotFoundHandler
| internalServiceError
| IntegrationHandler (h : nat).

#[global] Instance Handler_eq_dec : EqDecision Handler.
Proof. solve_decision. Defined.

Record handlerCacheEntry : Type := {
  handler : Handler;
  process : nat;
}.

(** What a request does besides answering. *)
Inductive WireEvent : Type :=
| WMetricsHandler (key : string) (addr : nat) (ok : bool)  (* p.i.MetricsHandler() *)
| WLogError (integration : string).

#[global] Instance WireEvent_eq_dec : EqDecision WireEvent.
Proof. solve_decision. Defined.

(** [loadHandler], the closure of [WireAPI]. [made] is what
    [p.i.MetricsHandler()] returns if this request calls it. *)
Definition loadHandler (integrations : gmap string integrationProcess)
    (handlerCache : gmap string handlerCacheEntry) (key : string) (made : result nat)
    : gmap string handlerCacheEntry * Handler * list WireEvent :=
  match integrations !! key with
  | None => (delete key handlerCache, NotFoundHandler, [])
  | Some p =>
      match handlerCache !! key with
      | Some cacheEntry =>
          if decide (process cacheEntry = proc_addr p)
          then (handlerCache, handler cacheEntry, [])
          else
            match made with
            | Err _ =>
                (handlerCache, internalServiceError,
                 [WMetricsHandler key (proc_addr p) false; WLogError (Name (proc_cfg p))])
            | Ok h =>
                (<[key := {| handler := IntegrationHandler h; process := proc_addr p |}]> handlerCache,
                 IntegrationHandler h, [WMetricsHandler key (proc_addr p) true])
            end
      | None =>
          match made with
          | Err _ =>
              (handlerCache, internalServiceError,
               [WMetricsHandler key (proc_addr p) false; WLogError (Name (proc_cfg p))])
          | Ok h =>
              (<[key := {| handler := IntegrationHandler h; process := proc_addr p |}]> handlerCache,
               IntegrationHandler h, [WMetricsHandler key (proc_addr p) true])
          end
      end
  end.

(** One request on [/integrations/{name}/metrics]: the registry as the
    request finds it under the read lock, the name in the URL, and what
    [MetricsHandler] returns if called. *)
Record Request : Type := {
  req_integrations : gmap string integrationProcess;
  req_name : string;
  req_made : result nat;
}.

(** The route's handler function, up to [handler.ServeHTTP]. *)
Definition serve (handlerCache : gmap string handlerCacheEntry) (r : Request)
    : gmap string handlerCacheEntry * Handler * list WireEvent :=
  loadHandler (req_integrations r) handlerCache (integrationKey (req_name r)) (req_made r).

(** A sequence of requests, served one after the other (the handler mutex
    serialises them): the cache after the last one, the handlers served and
    the events, in order. *)
Fixpoint serve_all (handlerCache : gmap string handlerCacheEntry) (rs : list Request)
    : gmap string handlerCacheEntry * list Handler * list WireEvent :=
  match rs with
  | [] => (handlerCache, [], [])
  | r :: rest =>
      let '(cache1, h, evs) := serve handlerCache r in
      let '(cache2, hs, evs') := serve_all cache1 rest in
      (cache2, h :: hs, evs ++ evs')
  end.

(** *** Vocabulary for statements about the handler cache *)

(** A call of [MetricsHandler] for the key [key] that returned a handler. *)
Definition is_made (key : string) (ev : WireEvent) : bool :=
  match ev with
  | WMetricsHandler k _ true => bool_decide (k = key)
  | _ => false
  end.

(** A call of [MetricsHandler] for the key [key], whatever it returned. *)
Definition is_call (key : string) (ev : WireEvent) : bool :=
  match ev with
  | WMetricsHandler k _ _ => bool_decide (k = key)
  | _ => false
  end.

(** *** Vocabulary for statements about [ApplyConfig] *)

(** A sub-step of [ApplyConfig] that failed: building an integration,
    validating its generated configuration, or applying it. *)
Definition is_failure (ev : Event) : bool :=
  match ev with
  | EvNewIntegration _ false => true
  | EvValidate _ _ false => true
  | EvApplyConfig _ false => true
  | _ => false
  end.

(** The allocator is ahead of every registered process, and no process is
    registered under two keys. *)
Definition registry_ok (ints : gmap string integrationProcess) (next : nat) : Prop :=
  (∀ k p, ints !! k = Some p → (proc_addr p < next)%nat)
  ∧ (∀ k1 k2 p1 p2, ints !! k1 = Some p1 → ints !! k2 = Some p2 →
       proc_addr p1 = proc_addr p2 → k1 = k2).

Definition Manager_ok (m : Manager) : Prop :=
  registry_ok (integrations m) (next_addr m).

(** The live processes, as [(key, address)]: a process is live from its
    [go p.Run()] to the call of its [stop]. *)
Definition live_step (live : list (string * nat)) (ev : Event) : list (string * nat) :=
  match ev with
  | EvGo key a => (key, a) :: live
  | EvStop a => filter (λ ka, ka.2 ≠ a) live
  | _ => live
  end.

Definition live_after (live : list (string * nat)) (tr : list Event) : list (string * nat) :=
  foldl live_step live tr.

(** The processes of a registry, as [(key, address)]. *)
Definition registered (ints : gmap string integrationProcess) : list (string * nat) :=
  (λ kp, (kp.1, proc_addr kp.2)) <$> map_to_list ints.

Definition at_most_one_per_key (live : list (string * nat)) : Prop :=
  ∀ k a1 a2, (k, a1) ∈ live → (k, a2) ∈ live → a1 = a2.

(** A path element that [path.Clean] copies as it is: not empty, not [.]
    or [..], and without a slash. *)
Fixpoint no_slash (s : string) : bool :=
  match s with
  | EmptyString => true
  | String c rest => if decide (c = slash) then false else no_slash rest
  end.

Definition plain (seg : string) : Prop :=
  seg ≠ "" ∧ seg ≠ "." ∧ seg ≠ ".." ∧ no_slash seg = true.

(** *** Vocabulary for further statements *)

Definition is_RWgAdd (ev : RunEvent) : bool :=
  match ev with RWgAdd => true | _ => false end.
Definition is_RWgDone (ev : RunEvent) : bool :=
  match ev with RWgDone => true | _ => false end.

(** An invocation after which the loop goes round again. *)
Definition restarts (r : RunReturn) : bool :=
  match r with
  | Returns err => match abnormal err with Some _ => true | None => false end
  | Panics _ => false
  end.

(** Every cached handler is one an integration returned. *)
Definition cache_real (cache : gmap string handlerCacheEntry) : Prop :=
  ∀ key e, cache !! key = Some e → ∃ h, handler e = IntegrationHandler h.

(** Whether an integration that is enabled is going to be scraped. *)
Definition scraped (c : ManagerConfig) (ic : Config) : bool :=
  match ScrapeIntegration (CommonConfig ic) with
  | Some b => b
  | None => ScrapeIntegrations c
  end.

(** ** Sample data *)

#[global] Instance relabel_Config_eq_dec : EqDecision relabel_Config.
Proof. solve_decision. Defined.

#[global] Instance Common_eq_dec : EqDecision Common.
Proof. solve_decision. Defined.

#[global] Instance TLSConfig_eq_dec : EqDecision TLSConfig_t.
Proof. solve_decision. Defined.

(** Modelled from the spec: [util.CompareYAML] on two integration
    configurations, which is not in this file. The spec calls the
    configurations it accepts "structurally-equal"; the declarative fields
    are compared, the methods of the interface are not. *)
Definition structural_Config (a b : Config) : bool :=
  bool_decide (Name a = Name b)
  && bool_decide (CommonConfig a = CommonConfig b)
  && bool_decide (Settings a = Settings b).

Fixpoint structural_Configs (l1 l2 : list Config) : bool :=
  match l1, l2 with
  | [], [] => true
  | a :: l1', b :: l2' => structural_Config a b && structural_Configs l1' l2'
  | _, _ => false
  end.

(** Modelled from the spec: [util.CompareYAML] on two manager
    configurations, "structurally equal" field by field. *)
Definition structural_ManagerConfig (a b : ManagerConfig) : bool :=
  bool_decide (ScrapeIntegrations a = ScrapeIntegrations b)
  && bool_decide (ReplaceInstanceLabel a = ReplaceInstanceLabel b)
  && bool_decide (UseHostnameLabel a = UseHostnameLabel b)
  && structural_Configs (Integrations a) (Integrations b)
  && bool_decide (Labels a = Labels b)
  && bool_decide (PrometheusRemoteWrite a = PrometheusRemoteWrite b)
  && bool_decide (IntegrationRestartBackoff a = IntegrationRestartBackoff b)
  && bool_decide (ListenPort a = ListenPort b)
  && bool_decide (ListenHost a = ListenHost b)
  && bool_decide (TLSConfig a = TLSConfig b)
  && bool_decide (ServerUsingTLS a = ServerUsingTLS b).

(** A value for [instance.DefaultConfig] (truncation every hour, in
    nanoseconds). *)
Definition sample_DefaultConfig : instance_Config :=
  {| inst_Name := ""; inst_ScrapeConfigs := []; inst_RemoteWrite := [];
     inst_WALTruncateFrequency := 3600000000000 |}.

Definition sample_Common : Common :=
  {| Enabled := true; ScrapeIntegration := None; ScrapeInterval := 0;
     ScrapeTimeout := 0; RelabelConfigs := []; MetricRelabelConfigs := [];
     WALTruncateFrequency := 0 |}.

(** An integration named [a] that declares the job [b] on [/metrics]. *)
Definition sample_integration : Integration :=
  {| ScrapeConfigs := [ {| JobName := "b"; MetricsPath := "/metrics" |} ] |}.

Definition config_a : Config :=
  {| Name := "a"; CommonConfig := sample_Common; Settings := "v1";
     NewIntegration := Ok sample_integration |}.

(** The same integration with other settings. *)
Definition config_a' : Config :=
  {| Name := "a"; CommonConfig := sample_Common; Settings := "v2";
     NewIntegration := Ok sample_integration |}.

(** An enabled integration that cannot be built. *)
Definition config_bad : Config :=
  {| Name := "bad"; CommonConfig := sample_Common; Settings := "";
     NewIntegration := Err (errorString "invalid settings") |}.

(** An integration that is configured and not enabled. *)
Definition config_off : Config :=
  {| Name := "off";
     CommonConfig :=
       {| Enabled := false; ScrapeIntegration := None; ScrapeInterval := 0;
          ScrapeTimeout := 0; RelabelConfigs := []; MetricRelabelConfigs := [];
          WALTruncateFrequency := 0 |};
     Settings := ""; NewIntegration := Ok sample_integration |}.

Definition sample_ManagerConfig (ics : list Config) : ManagerConfig :=
  {| ScrapeIntegrations := true; ReplaceInstanceLabel := true;
     UseHostnameLabel := true; Integrations := ics; Labels := ∅;
     PrometheusRemoteWrite := []; IntegrationRestartBackoff := 5000000000;
     ListenPort := 12345; ListenHost := ""; TLSConfig := zero_TLSConfig;
     ServerUsingTLS := false |}.

(** An instance manager and a validator that accept everything. *)
Definition sample_im : instance_Manager :=
  {| im_ApplyConfig := λ _, None; im_DeleteConfig := λ _, None |}.

Definition sample_validator (c : instance_Config) : instance_Config * option error :=
  (c, None).

Definition process_a : integrationProcess :=
  {| proc_addr := 0; proc_cfg := config_a; proc_i := sample_integration |}.

(** A manager that runs [a] after [ApplyConfig] of [sample_ManagerConfig [config_a]]. *)
Definition manager_a : Manager :=
  {| cfg := sample_ManagerConfig [config_a]; hostname := "host"; ctx_done := false;
     im := sample_im; validator := sample_validator;
     integrations := {[ "integration/a" := process_a ]}; next_addr := 1 |}.

(** The same manager after [Stop]. *)
Definition manager_stopped : Manager :=
  {| cfg := sample_ManagerConfig [config_a]; hostname := "host"; ctx_done := true;
     im := sample_im; validator := sample_validator;
     integrations := {[ "integration/a" := process_a ]}; next_addr := 1 |}.

Section Manager.

(** [util.CompareYAML] at the two types it is called at, and
    [instance.DefaultConfig]. *)
Variable CompareYAML_ManagerConfig : ManagerConfig → ManagerConfig → bool.
Variable CompareYAML : Config → Config → bool.
Variable instance_DefaultConfig : instance_Config.

(** [ManagerConfig.DefaultRelabelConfigs]. *)
Definition DefaultRelabelConfigs (c : ManagerConfig) (hostname : string) : list relabel_Config :=
  if ReplaceInstanceLabel c then
    [ {| SourceLabels := ["__address__"]; Action := "replace"; Separator := ";";
         Regex := "(.*)";
         Replacement := hostname +:+ ":" +:+ pretty (ListenPort c);
         TargetLabel := "instance" |} ]
  else [].

(** The loop of [ManagerConfig.ApplyDefaults] over the integrations still
    to visit: an integration that is not enabled is skipped; for the others
    the per-integration setting overrides [ScrapeIntegrations], and the
    first one that is going to be scraped without a WAL directory ends the
    loop with an error. *)
Fixpoint ApplyDefaults_loop (c : ManagerConfig) (WALDir : string)
    (ics : list Config) : option error :=
  match ics with
  | [] => None
  | ic :: rest =>
      if negb (Enabled (CommonConfig ic)) then ApplyDefaults_loop c WALDir rest
      else
        let scrapeIntegration :=
          match ScrapeIntegration (CommonConfig ic) with
          | Some b => b
          | None => ScrapeIntegrations c
          end in
        if scrapeIntegration && bool_decide (WALDir = "")
        then Some (errorString "no wal_directory configured")
        else ApplyDefaults_loop c WALDir rest
  end.

(** [ManagerConfig.ApplyDefaults], given the [WALDir] of the Prometheus
    configuration. *)
Definition ApplyDefaults (c : ManagerConfig) (WALDir : string) : option error :=
  ApplyDefaults_loop c WALDir (Integrations c).

(** [Manager.scrapeServiceDiscovery]. *)
Definition scrapeServiceDiscovery (hostname : string) (cfg : ManagerConfig) : list StaticConfig :=
  let newHost := if decide (ListenHost cfg = "") then "127.0.0.1" else ListenHost cfg in
  let localAddr := newHost +:+ ":" +:+ pretty (ListenPort cfg) in
  let labels : gmap string string :=
    if UseHostnameLabel cfg then {[ "agent_hostname" := hostname ]} else ∅ in
  [ {| Targets := [ {[ "__address__" := localAddr ]} ];
       TargetLabels := Labels cfg ∪ labels |} ].

(** [Manager.instanceConfigForIntegration]. *)
Definition instanceConfigForIntegration (hostname : string)
    (icfg : Config) (i : Integration) (cfg : ManagerConfig) : instance_Config :=
  let common := CommonConfig icfg in
  let relabelConfigs := DefaultRelabelConfigs cfg hostname ++ RelabelConfigs common in
  let schema := if ServerUsingTLS cfg then "https" else "http" in
  let httpClientTLSConfig := if ServerUsingTLS cfg then TLSConfig cfg else zero_TLSConfig in
  let scrapeConfigs :=
    map (λ isc,
      {| sc_JobName := "integrations/" +:+ JobName isc;
         sc_MetricsPath := path_Join ["/integrations"; Name icfg; MetricsPath isc];
         sc_Scheme := schema;
         sc_HonorLabels := false;
         sc_HonorTimestamps := true;
         sc_ScrapeInterval := ScrapeInterval common;
         sc_ScrapeTimeout := ScrapeTimeout common;
         sc_ServiceDiscoveryConfigs := scrapeServiceDiscovery hostname cfg;
         sc_RelabelConfigs := relabelConfigs;
         sc_MetricRelabelConfigs := MetricRelabelConfigs common;
         sc_HTTPClientTLSConfig := httpClientTLSConfig |})
      (ScrapeConfigs i) in
  {| inst_Name := integrationKey (Name icfg);
     inst_ScrapeConfigs := scrapeConfigs;
     inst_RemoteWrite := PrometheusRemoteWrite cfg;
     inst_WALTruncateFrequency :=
       if decide (WALTruncateFrequency common > 0) then WALTruncateFrequency common
       else inst_WALTruncateFrequency instance_DefaultConfig |}.

(** The tail of the first loop's body, from [ic.NewIntegration(l)] on:
    build the integration, and either give up on it or create, start and
    register its process. *)
Definition startIntegration (st : applyState) (ic : Config) : applyState :=
  let key := integrationKey (Name ic) in
  match NewIntegration ic with
  | Err _ =>
      set_failed (emit st
        [ EvNewIntegration (Name ic) false;
          EvLogError "failed to initialize integration. it will not run or be scraped" (Name ic);
          EvDeleteConfig key ])
  | Ok i =>
      let p := {| proc_addr := st_next st; proc_cfg := ic; proc_i := i |} in
      {| st_integrations := <[key := p]> (st_integrations st);
         st_next := S (st_next st);
         st_failed := st_failed st;
         st_trace := st_trace st ++ [ EvNewIntegration (Name ic) true; EvGo key (st_next st) ] |}
  end.

(** The body of the first loop of [ApplyConfig], for one entry [ic]. *)
Definition applyIntegration (st : applyState) (ic : Config) : applyState :=
  let key := integrationKey (Name ic) in
  match st_integrations st !! key with
  | Some p =>
      if CompareYAML (proc_cfg p) ic then st
      else startIntegration (unregister key (emit st [EvStop (proc_addr p)])) ic
  | None => startIntegration st ic
  end.

(** The inner loop of the second loop: is there an entry with this key? *)
Definition foundConfig (cfg : ManagerConfig) (key : string) : bool :=
  existsb (λ ic, bool_decide (integrationKey (Name ic) = key)) (Integrations cfg).

(** The body of the second loop, for one registered [(key, process)]. *)
Definition sweepIntegration (cfg : ManagerConfig) (st : applyState)
    (kp : string * integrationProcess) : applyState :=
  if foundConfig cfg kp.1 then st
  else unregister kp.1 (emit st [EvDeleteConfig kp.1; EvStop (proc_addr kp.2)]).

Definition shouldCollect (cfg : ManagerConfig) (p : integrationProcess) : bool :=
  match ScrapeIntegration (CommonConfig (proc_cfg p)) with
  | Some b => b
  | None => ScrapeIntegrations cfg
  end.

(** The body of the third loop, for one registered [(key, p)]. *)
Definition reapplyIntegration (m : Manager) (cfg : ManagerConfig) (st : applyState)
    (kp : string * integrationProcess) : applyState :=
  let '(key, p) := kp in
  if shouldCollect cfg p then
    let instanceConfig := instanceConfigForIntegration (hostname m) (proc_cfg p) (proc_i p) cfg in
    match validator m instanceConfig with
    | (_, Some _) =>
        set_failed (emit st
          [ EvValidate key instanceConfig false;
            EvLogError "failed to validate generated scrape config for integration. integration will not be scraped" (Name (proc_cfg p)) ])
    | (validated, None) =>
        match im_ApplyConfig (im m) validated with
        | Some _ =>
            set_failed (emit st
              [ EvValidate key instanceConfig true;
                EvApplyConfig validated false;
                EvLogError "failed to apply integration. integration will not be scraped" (Name (proc_cfg p)) ])
        | None =>
            emit st [ EvValidate key instanceConfig true; EvApplyConfig validated true ]
        end
    end
  else emit st [EvDeleteConfig key].

(** The three loops of [ApplyConfig], from the state [st]. Each [range]
    over the registry visits the entries it holds when the loop starts; the
    second loop deletes only the entry it is visiting. *)
Definition reconcile (m : Manager) (c : ManagerConfig) (st : applyState) : applyState :=
  let st1 := foldl applyIntegration st (Integrations c) in
  let st2 := foldl (sweepIntegration c) st1 (map_to_list (st_integrations st1)) in
  foldl (reapplyIntegration m c) st2 (map_to_list (st_integrations st2)).

Definition initial_applyState (m : Manager) : applyState :=
  {| st_integrations := integrations m; st_next := next_addr m;
     st_failed := false; st_trace := [] |}.

(** [Manager.ApplyConfig]: the manager after the call, what the call did,
    and the error it returns ([None] for nil). *)
Definition ApplyConfig (m : Manager) (c : ManagerConfig) : Manager * list Event * option error :=
  if CompareYAML_ManagerConfig (cfg m) c then (m, [], None)
  else if ctx_done m then (m, [], Some (errorString "Manager already stopped"))
  else
    let st := reconcile m c (initial_applyState m) in
    ({| cfg := c; hostname := hostname m; ctx_done := ctx_done m; im := im m;
        validator := validator m; integrations := st_integrations st;
        next_addr := st_next st |},
     st_trace st,
     if st_failed st then Some (errorString "not all integrations were correctly updated")
     else None).

(** [NewManager]; [host] is what [instance.Hostname()] returns. *)
Definition NewManager (c : ManagerConfig) (im0 : instance_Manager)
    (validate : instance_Config → instance_Config * option error)
    (host : result string) : result (Manager * list Event) :=
  match host with
  | Err e => Err e
  | Ok h =>
      let m := {| cfg := zero_ManagerConfig; hostname := h; ctx_done := false;
                  im := im0; validator := validate; integrations := ∅;
                  next_addr := 0 |} in
      match ApplyConfig m c with
      | (_, _, Some e) => Err (errorString ("failed applying config: " +:+ error_text e))
      | (m', tr, None) => Ok (m', tr)
      end
  end.

(** [Manager.Stop]: cancel the root context (and with it the context of
    every process); the wait for the run loops changes nothing here. *)
Definition Stop (m : Manager) : Manager :=
  {| cfg := cfg m; hostname := hostname m; ctx_done := true; im := im m;
     validator := validator m; integrations := integrations m;
     next_addr := next_addr m |}.

(** *** Vocabulary for the proofs about the three loops *)

Implicit Types (st : applyState) (ic : Config) (c : ManagerConfig) (m : Manager).

(** The states the loops go through only ever extend the trace. *)
Definition extends st st' : Prop := ∃ evs, st_trace st' = st_trace st ++ evs.

(** The [failed] flag says whether a failed sub-step is in the trace. *)
Definition flag_ok st : Prop := st_failed st = existsb is_failure (st_trace st).

(** Every process of the registry was there before the call or was built
    during it. *)
Definition provenance m st : Prop :=
  ∀ k p, st_integrations st !! k = Some p →
    integrations m !! k = Some p
    ∨ (integrationKey (Name (proc_cfg p)) = k
       ∧ EvNewIntegration (Name (proc_cfg p)) true ∈ st_trace st).

(** The entry has been dealt with: its integration was built (or failed
    to), or it was running unchanged when the call began. *)
Definition handled m ic st : Prop :=
  (∃ ok, EvNewIntegration (Name ic) ok ∈ st_trace st)
  ∨ (∃ p, integrations m !! integrationKey (Name ic) = Some p
          ∧ CompareYAML (proc_cfg p) ic = true).

(** Whether a collaborator returned nil. *)
Definition is_nil (e : option error) : bool :=
  match e with
  | None => true
  | Some _ => false
  end.

(** What the third loop owes a registered process: when it is to be
    scraped, the validation of its generated configuration and, if the
    validator accepts it, the call of [im.ApplyConfig] on the validated
    configuration right after; otherwise the deletion of its scrape
    configuration. *)
Definition reapplied m c (kp : string * integrationProcess) st : Prop :=
  let instanceConfig :=
    instanceConfigForIntegration (hostname m) (proc_cfg kp.2) (proc_i kp.2) c in
  if shouldCollect c kp.2 then
    match validator m instanceConfig with
    | (_, Some _) => EvValidate kp.1 instanceConfig false ∈ st_trace st
    | (validated, None) =>
        ∃ t1 t2, st_trace st =
          t1 ++ EvValidate kp.1 instanceConfig true
             :: EvApplyConfig validated (is_nil (im_ApplyConfig (im m) validated)) :: t2
    end
  else EvDeleteConfig kp.1 ∈ st_trace st.

(** Every live process is the one registered under its key. *)
Definition live_inv (live : list (string * nat)) (ints : gmap string integrationProcess) : Prop :=
  ∀ k a, (k, a) ∈ live → ∃ q, ints !! k = Some q ∧ proc_addr q = a.

(** At most one live process per key before the events [evs] and after
    each of them. *)
Fixpoint always_one (live : list (string * nat)) (evs : list Event) : Prop :=
  at_most_one_per_key live
  ∧ match evs with
    | [] => True
    | ev :: evs' => always_one (live_step live ev) evs'
    end.

(** The invariant of the three loops about live processes, from the live
    processes [live0] the call finds. *)
Definition good (live0 : list (string * nat))
    (ints : gmap string integrationProcess) (tr : list Event) : Prop :=
  live_inv (live_after live0 tr) ints ∧ always_one live0 tr.

(** Nothing has been built or started for the key [k]. *)
Definition quiet (k : string) (tr : list Event) : Prop :=
  (∀ a, EvGo k a ∉ tr)
  ∧ (∀ n ok, integrationKey n = k → EvNewIntegration n ok ∉ tr).

(** The process [p] is still registered under [k], has not been stopped,
    and nothing has been built or started for [k]. *)
Definition keeps (k : string) (p : integrationProcess) st : Prop :=
  registry_ok (st_integrations st) (st_next st)
  ∧ st_integrations st !! k = Some p
  ∧ (EvStop (proc_addr p) ∉ st_trace st)
  ∧ quiet k (st_trace st).

(** The process [p] is no longer the one registered under [k], and the
    allocator is past it. *)
Definition replaced (k : string) (p : integrationProcess) st : Prop :=
  (proc_addr p < st_next st)%nat
  ∧ ∀ q, st_integrations st !! k = Some q → proc_addr q ≠ proc_addr p.

(** *** Vocabulary for further statements about the manager *)

(** Every process is registered under the key of its own configuration. *)
Definition key_consistent (ints : gmap string integrationProcess) : Prop :=
  ∀ k p, ints !! k = Some p → integrationKey (Name (proc_cfg p)) = k.

(** Every registered process is live. *)
Definition live_cover (live : list (string * nat)) (ints : gmap string integrationProcess) : Prop :=
  ∀ k q, ints !! k = Some q → (k, proc_addr q) ∈ live.

(** Where a registered process comes from, after the entries [done] have
    been visited: it was built from one of them, or it was registered when
    the call began and every visited entry with its key compares equal to
    its configuration. *)
Definition reflects m (done : list Config) (ints : gmap string integrationProcess) : Prop :=
  ∀ k p, ints !! k = Some p →
    (proc_cfg p ∈ done ∧ integrationKey (Name (proc_cfg p)) = k)
    ∨ (integrations m !! k = Some p
       ∧ ∀ ic, ic ∈ done → integrationKey (Name ic) = k →
           CompareYAML (proc_cfg p) ic = true).

(** A sequence of calls of [ApplyConfig]: the manager after the last one
    and the events of all of them. *)
Fixpoint apply_all m (cs : list ManagerConfig) : Manager * list Event :=
  match cs with
  | [] => (m, [])
  | c :: rest =>
      let '(m1, tr1, _) := ApplyConfig m c in
      let '(m2, tr2) := apply_all m1 rest in
      (m2, tr1 ++ tr2)
  end.

(** The managers a program can hold: the result of [NewManager], and what
    [ApplyConfig] and [Stop] make of one. *)
Inductive reachable : Manager → Prop :=
| reachable_NewManager c im0 validate host m tr :
    NewManager c im0 validate host = Ok (m, tr) → reachable m
| reachable_ApplyConfig m c :
    reachable m → reachable (ApplyConfig m c).1.1
| reachable_Stop m :
    reachable m → reachable (Stop m).


(** * Properties of [ApplyConfig] *)

(** Unfold one iteration of the first loop into its cases. *)
Ltac apply_cases st ic :=
  unfold applyIntegration, startIntegration, unregister, set_failed, emit;
  let p := fresh "p" in
  let Hp := fresh "Hp" in
  let Hcmp := fresh "Hcmp" in
  let i := fresh "i" in
  let Hnew := fresh "Hnew" in
  destruct (st_integrations st !! integrationKey (Name ic)) as [p|] eqn:Hp;
  [destruct (CompareYAML (proc_cfg p) ic) eqn:Hcmp;
   [|destruct (NewIntegration ic) as [i|?] eqn:Hnew]
  |destruct (NewIntegration ic) as [i|?] eqn:Hnew]; simpl.


Lemma foldl_invariant {A B} (P : A → Prop) (f : A → B → A) (l : list B) (a : A) :
  P a → (∀ a' b, b ∈ l → P a' → P (f a' b)) → P (foldl f a l).
Proof.
  revert a. induction l as [|b l IH]; intros a Ha Hstep; simpl; [done|].
  apply IH.
  - apply Hstep; [left|done].
  - intros a' b' Hb'. apply Hstep. by right.
Qed.

Lemma extends_refl st : extends st st.
Proof. exists []. by rewrite app_nil_r. Qed.

Lemma extends_trans st1 st2 st3 : extends st1 st2 → extends st2 st3 → extends st1 st3.
Proof. intros [e1 H1] [e2 H2]. exists (e1 ++ e2). by rewrite H2, H1, app_assoc. Qed.

Lemma extends_elem st st' ev : extends st st' → ev ∈ st_trace st → ev ∈ st_trace st'.
Proof. intros [evs ->] H. apply elem_of_app. by left. Qed.

Lemma applyIntegration_extends st ic : extends st (applyIntegration st ic).
Proof.
  apply_cases st ic; try apply extends_refl; eexists; by rewrite <- ?app_assoc.
Qed.

Lemma sweepIntegration_extends c st kp : extends st (sweepIntegration c st kp).
Proof.
  unfold sweepIntegration. destruct (foundConfig c kp.1); [apply extends_refl|].
  by eexists.
Qed.

Lemma reapplyIntegration_extends m c st kp : extends st (reapplyIntegration m c st kp).
Proof.
  unfold reapplyIntegration. destruct kp as [key p].
  destruct (shouldCollect c p); [|by eexists].
  destruct (validator m _) as [validated [e|]]; [by eexists|].
  destruct (im_ApplyConfig (im m) validated); by eexists.
Qed.

Lemma foldl_extends {B} (f : applyState → B → applyState) (l : list B) st :
  (∀ st' b, extends st' (f st' b)) → extends st (foldl f st l).
Proof.
  intros Hf. apply (foldl_invariant (extends st)); [apply extends_refl|].
  intros a' b _ Ha. eapply extends_trans; [exact Ha|apply Hf].
Qed.

(** ** The registry through the three loops *)

Lemma foundConfig_true c k :
  foundConfig c k = true ↔ ∃ ic, ic ∈ Integrations c ∧ integrationKey (Name ic) = k.
Proof.
  unfold foundConfig. rewrite existsb_exists. split.
  - intros (ic & Hin & Hk). exists ic. split; [by apply list_elem_of_In|].
    by apply bool_decide_eq_true in Hk.
  - intros (ic & Hin & Hk). exists ic. split; [by apply list_elem_of_In|].
    by apply bool_decide_eq_true.
Qed.

Lemma foundConfig_false c k :
  foundConfig c k = false ↔ ∀ ic, ic ∈ Integrations c → integrationKey (Name ic) ≠ k.
Proof.
  rewrite <- not_true_iff_false, foundConfig_true. split.
  - intros Hno ic Hin Hk. apply Hno. by exists ic.
  - intros Hall (ic & Hin & Hk). by apply (Hall ic).
Qed.

Lemma applyIntegration_other_key st ic k :
  integrationKey (Name ic) ≠ k →
  st_integrations (applyIntegration st ic) !! k = st_integrations st !! k.
Proof.
  intros Hk. apply_cases st ic;
    rewrite ?lookup_insert_ne, ?lookup_delete_ne by done; done.
Qed.

Lemma loop1_other_key l st k :
  (∀ ic, ic ∈ l → integrationKey (Name ic) ≠ k) →
  st_integrations (foldl applyIntegration st l) !! k = st_integrations st !! k.
Proof.
  intros Hl.
  apply (foldl_invariant (λ st', st_integrations st' !! k = st_integrations st !! k)); [done|].
  intros st' ic Hic Hst'. rewrite applyIntegration_other_key; [done|by apply Hl].
Qed.

Lemma applyIntegration_next st ic :
  (st_next st ≤ st_next (applyIntegration st ic))%nat.
Proof. apply_cases st ic; lia. Qed.

Lemma loop1_next l st : (st_next st ≤ st_next (foldl applyIntegration st l))%nat.
Proof.
  apply (foldl_invariant (λ st', (st_next st ≤ st_next st')%nat)); [done|].
  intros st' ic _ Hst'. pose proof (applyIntegration_next st' ic). lia.
Qed.

Lemma registry_ok_delete ints next k :
  registry_ok ints next → registry_ok (delete k ints) next.
Proof.
  intros [Hlt Hinj]. split.
  - intros k' p Hk'. apply lookup_delete_Some in Hk' as [_ Hk']. by apply (Hlt k').
  - intros k1 k2 p1 p2 H1 H2. apply lookup_delete_Some in H1 as [_ H1].
    apply lookup_delete_Some in H2 as [_ H2]. by apply Hinj.
Qed.

Lemma registry_ok_insert_fresh ints next k ic i :
  registry_ok ints next →
  registry_ok (<[k := {| proc_addr := next; proc_cfg := ic; proc_i := i |}]> ints) (S next).
Proof.
  intros [Hlt Hinj]. split.
  - intros k' p Hk'. apply lookup_insert_Some in Hk' as [[_ <-]|[_ Hk']]; simpl; [lia|].
    specialize (Hlt _ _ Hk'). lia.
  - intros k1 k2 p1 p2 H1 H2 Ha.
    apply lookup_insert_Some in H1 as [[<- <-]|[Hne1 H1]];
      apply lookup_insert_Some in H2 as [[<- <-]|[Hne2 H2]]; simpl in *; try done.
    + specialize (Hlt _ _ H2). lia.
    + specialize (Hlt _ _ H1). lia.
    + by apply (Hinj k1 k2 p1 p2).
Qed.

Lemma applyIntegration_ok st ic :
  registry_ok (st_integrations st) (st_next st) →
  registry_ok (st_integrations (applyIntegration st ic)) (st_next (applyIntegration st ic)).
Proof.
  intros Hok. apply_cases st ic; try done;
    try (by apply registry_ok_delete);
    try (apply registry_ok_insert_fresh; try done; by apply registry_ok_delete).
Qed.

Lemma loop1_ok l st :
  registry_ok (st_integrations st) (st_next st) →
  registry_ok (st_integrations (foldl applyIntegration st l))
              (st_next (foldl applyIntegration st l)).
Proof.
  intros Hok.
  apply (foldl_invariant (λ st', registry_ok (st_integrations st') (st_next st'))); [done|].
  intros st' ic _. apply applyIntegration_ok.
Qed.

(** The second loop keeps exactly the visited keys that have an entry. *)
Lemma sweep_lookup c (l : list (string * integrationProcess)) st k :
  st_integrations (foldl (sweepIntegration c) st l) !! k =
  if decide (k ∈ l.*1 ∧ foundConfig c k = false) then None
  else st_integrations st !! k.
Proof.
  revert st. induction l as [|[k' p'] l IH]; intros st.
  - cbn [foldl]. destruct (decide (_ ∧ _)) as [[H _]|]; [by apply elem_of_nil in H|done].
  - cbn [foldl]. rewrite IH, fmap_cons. cbn [fst].
    assert (Hhere : st_integrations (sweepIntegration c st (k', p')) !! k =
                    if decide (k = k' ∧ foundConfig c k = false) then None
                    else st_integrations st !! k).
    { unfold sweepIntegration. cbn [fst snd].
      destruct (foundConfig c k') eqn:Hf.
      - destruct (decide (k = k' ∧ _)) as [[-> H]|]; [congruence|done].
      - cbn. destruct (decide (k = k')) as [->|Hne].
        + rewrite lookup_delete_eq. by rewrite decide_True.
        + rewrite lookup_delete_ne by done. rewrite decide_False; [done|]. by intros [? _]. }
    rewrite Hhere.
    destruct (decide (k ∈ l.*1 ∧ _)) as [[Hin Hk]|Hn].
    + rewrite decide_True; [done|]. split; [by right|done].
    + destruct (decide (k = k' ∧ _)) as [[-> Hk]|Hn'].
      * rewrite decide_True; [done|]. split; [by left|done].
      * rewrite decide_False; [done|]. intros [Hin Hk].
        apply elem_of_cons in Hin as [->|Hin]; [by apply Hn'|by apply Hn].
Qed.

Lemma sweep_registry c ints next failed tr k :
  let st := {| st_integrations := ints; st_next := next; st_failed := failed; st_trace := tr |} in
  st_integrations (foldl (sweepIntegration c) st (map_to_list ints)) !! k =
  if foundConfig c k then ints !! k else None.
Proof.
  intros st. rewrite sweep_lookup. simpl.
  destruct (foundConfig c k) eqn:Hf.
  - rewrite decide_False; [done|]. by intros [_ ?].
  - destruct (decide _) as [|Hn]; [done|].
    destruct (ints !! k) as [p|] eqn:Hp; [|done].
    exfalso. apply Hn. split; [|done].
    apply list_elem_of_fmap. exists (k, p). split; [done|]. by apply elem_of_map_to_list.
Qed.

Lemma sweepIntegration_next c st kp : st_next (sweepIntegration c st kp) = st_next st.
Proof. unfold sweepIntegration. by destruct (foundConfig c kp.1). Qed.

Lemma sweepIntegration_failed c st kp : st_failed (sweepIntegration c st kp) = st_failed st.
Proof. unfold sweepIntegration. by destruct (foundConfig c kp.1). Qed.

Lemma reapplyIntegration_registry m c st kp :
  st_integrations (reapplyIntegration m c st kp) = st_integrations st
  ∧ st_next (reapplyIntegration m c st kp) = st_next st.
Proof.
  unfold reapplyIntegration. destruct kp as [key p].
  destruct (shouldCollect c p); [|done].
  destruct (validator m _) as [validated [e|]]; [done|].
  by destruct (im_ApplyConfig (im m) validated).
Qed.

Lemma loop3_registry m c l st :
  st_integrations (foldl (reapplyIntegration m c) st l) = st_integrations st
  ∧ st_next (foldl (reapplyIntegration m c) st l) = st_next st.
Proof.
  apply (foldl_invariant (λ st', st_integrations st' = st_integrations st
                                 ∧ st_next st' = st_next st)); [done|].
  intros st' kp _ [H1 H2]. destruct (reapplyIntegration_registry m c st' kp) as [H3 H4].
  by rewrite H3, H4.
Qed.

Lemma foldl_each {A B} (Inv : A → Prop) (Post : B → A → Prop) (f : A → B → A)
    (l : list B) (a : A) :
  Inv a →
  (∀ a' b, b ∈ l → Inv a' → Inv (f a' b) ∧ Post b (f a' b)) →
  (∀ a' b b', b' ∈ l → Inv a' → Post b a' → Post b (f a' b')) →
  Inv (foldl f a l) ∧ ∀ b, b ∈ l → Post b (foldl f a l).
Proof.
  revert a. induction l as [|b l IH]; intros a Ha Hstep Hstable; simpl.
  - split; [done|]. intros b Hb. by apply elem_of_nil in Hb.
  - destruct (Hstep a b) as [Hinv Hpost]; [left|done|].
    destruct (IH (f a b)) as [Hfin Hall]; [done| |  |].
    + intros a' b' Hb'. apply Hstep. by right.
    + intros a' b1 b' Hb'. apply Hstable. by right.
    + split; [done|]. intros b' Hb'. apply elem_of_cons in Hb' as [->|Hb']; [|by apply Hall].
      apply (foldl_invariant (λ a', Inv a' ∧ Post b a')); [done|].
      intros a' b' Hb' [Ha' Hp']. split.
      * apply Hstep; [by right|done].
      * apply Hstable; [by right|done|done].
Qed.

Lemma reconcile_registry m c st k :
  st_integrations (reconcile m c st) !! k =
  if foundConfig c k then st_integrations (foldl applyIntegration st (Integrations c)) !! k
  else None.
Proof.
  unfold reconcile.
  destruct (loop3_registry m c
    (map_to_list (st_integrations (foldl (sweepIntegration c)
       (foldl applyIntegration st (Integrations c))
       (map_to_list (st_integrations (foldl applyIntegration st (Integrations c)))))))
    (foldl (sweepIntegration c) (foldl applyIntegration st (Integrations c))
       (map_to_list (st_integrations (foldl applyIntegration st (Integrations c))))))
    as [-> _].
  destruct (foldl applyIntegration st (Integrations c)) as [ints1 next1 failed1 tr1].
  apply sweep_registry.
Qed.

Lemma reconcile_extends_loop1 m c st :
  extends (foldl applyIntegration st (Integrations c)) (reconcile m c st).
Proof.
  unfold reconcile.
  eapply extends_trans; [|apply foldl_extends; apply reapplyIntegration_extends].
  apply foldl_extends. apply sweepIntegration_extends.
Qed.

Lemma reconcile_extends_loop2 m c st :
  let st1 := foldl applyIntegration st (Integrations c) in
  extends (foldl (sweepIntegration c) st1 (map_to_list (st_integrations st1)))
          (reconcile m c st).
Proof. intros st1. unfold reconcile. apply foldl_extends. apply reapplyIntegration_extends. Qed.

(** What [ApplyConfig] returns once it is past its two guards. *)
Lemma ApplyConfig_reconciles m c :
  CompareYAML_ManagerConfig (cfg m) c = false →
  ctx_done m = false →
  ApplyConfig m c =
  ({| cfg := c; hostname := hostname m; ctx_done := ctx_done m; im := im m;
      validator := validator m;
      integrations := st_integrations (reconcile m c (initial_applyState m));
      next_addr := st_next (reconcile m c (initial_applyState m)) |},
   st_trace (reconcile m c (initial_applyState m)),
   if st_failed (reconcile m c (initial_applyState m))
   then Some (errorString "not all integrations were correctly updated") else None).
Proof. intros Hcmp Hdone. unfold ApplyConfig. by rewrite Hcmp, Hdone. Qed.

Lemma applyIntegration_at_key st ic :
  st_integrations (applyIntegration st ic) !! integrationKey (Name ic) =
  let started :=
    match NewIntegration ic with
    | Ok i => Some {| proc_addr := st_next st; proc_cfg := ic; proc_i := i |}
    | Err _ => None
    end in
  match st_integrations st !! integrationKey (Name ic) with
  | Some p => if CompareYAML (proc_cfg p) ic then Some p else started
  | None => started
  end.
Proof.
  apply_cases st ic; rewrite ?Hp, ?Hcmp, ?Hnew, ?lookup_insert_eq, ?lookup_delete_eq; done.
Qed.

(** The key of an entry that occurs once in the list, after the first loop. *)
Lemma loop1_at_key l1 l2 ic st :
  (∀ ic', ic' ∈ l1 → integrationKey (Name ic') ≠ integrationKey (Name ic)) →
  (∀ ic', ic' ∈ l2 → integrationKey (Name ic') ≠ integrationKey (Name ic)) →
  ∃ next,
    st_integrations (foldl applyIntegration st (l1 ++ ic :: l2)) !! integrationKey (Name ic) =
    let started :=
      match NewIntegration ic with
      | Ok i => Some {| proc_addr := next; proc_cfg := ic; proc_i := i |}
      | Err _ => None
      end in
    match st_integrations st !! integrationKey (Name ic) with
    | Some p => if CompareYAML (proc_cfg p) ic then Some p else started
    | None => started
    end.
Proof.
  intros H1 H2. exists (st_next (foldl applyIntegration st l1)).
  rewrite foldl_app. cbn [foldl].
  rewrite loop1_other_key by done.
  rewrite applyIntegration_at_key. cbn zeta.
  by rewrite loop1_other_key by done.
Qed.

Lemma NoDup_keys_split (l : list Config) ic :
  NoDup (map (λ ic, integrationKey (Name ic)) l) → ic ∈ l →
  ∃ l1 l2, l = l1 ++ ic :: l2
    ∧ (∀ ic', ic' ∈ l1 → integrationKey (Name ic') ≠ integrationKey (Name ic))
    ∧ (∀ ic', ic' ∈ l2 → integrationKey (Name ic') ≠ integrationKey (Name ic)).
Proof.
  intros Hnd Hin. apply list_elem_of_split in Hin as (l1 & l2 & ->).
  exists l1, l2. split; [done|].
  rewrite map_app in Hnd. cbn [map] in Hnd.
  apply NoDup_app in Hnd as (_ & Hdisj & Hnd2).
  apply NoDup_cons in Hnd2 as [Hnot2 _].
  split.
  - intros ic' Hic' Heq. apply (Hdisj (integrationKey (Name ic'))).
    + apply list_elem_of_fmap. by exists ic'.
    + rewrite Heq. left.
  - intros ic' Hic' Heq. apply Hnot2. rewrite <- Heq.
    apply list_elem_of_fmap. by exists ic'.
Qed.

Lemma sweep_events c (l : list (string * integrationProcess)) st k p :
  (k, p) ∈ l → foundConfig c k = false →
  EvDeleteConfig k ∈ st_trace (foldl (sweepIntegration c) st l)
  ∧ EvStop (proc_addr p) ∈ st_trace (foldl (sweepIntegration c) st l).
Proof.
  intros Hin Hf.
  destruct (foldl_each (λ _, True)
    (λ kp st', foundConfig c kp.1 = false →
       EvDeleteConfig kp.1 ∈ st_trace st' ∧ EvStop (proc_addr kp.2) ∈ st_trace st')
    (sweepIntegration c) l st) as [_ Hall]; [done| | |by apply (Hall (k, p))].
  - intros st' kp _ _. split; [done|]. intros Hkp.
    unfold sweepIntegration. rewrite Hkp. simpl.
    split; apply elem_of_app; right; [left|right; left].
  - intros st' kp kp' _ _ Hpost Hkp. destruct (Hpost Hkp) as [H1 H2].
    split; eapply extends_elem; try apply sweepIntegration_extends; done.
Qed.

(** C1 (amended). When [ApplyConfig(C2)] gets past its guards (the manager
    is not stopped and [C2] differs from the stored configuration), then
    after it returns: every key of the registry is the key of an entry of
    [C2]; if the keys of [C2] are distinct, an enabled entry that was
    running with an unchanged configuration or whose integration can be
    built is registered, and an entry whose integration cannot be built and
    that was not running unchanged is not; and for every key registered
    before that has no entry in [C2], [DeleteConfig(key)] has been called,
    the process has been stopped, and the key is gone from the registry. *)
Theorem ApplyConfig_registry m c :
  CompareYAML_ManagerConfig (cfg m) c = false →
  ctx_done m = false →
  let m' := (ApplyConfig m c).1.1 in
  let tr := (ApplyConfig m c).1.2 in
  (∀ k, is_Some (integrations m' !! k) →
     ∃ ic, ic ∈ Integrations c ∧ integrationKey (Name ic) = k)
  ∧ (NoDup (map (λ ic, integrationKey (Name ic)) (Integrations c)) →
     ∀ ic, ic ∈ Integrations c →
       let unchanged :=
         ∃ p, integrations m !! integrationKey (Name ic) = Some p
              ∧ CompareYAML (proc_cfg p) ic = true in
       (Enabled (CommonConfig ic) = true →
        unchanged ∨ (∃ i, NewIntegration ic = Ok i) →
        ∃ p', integrations m' !! integrationKey (Name ic) = Some p'
              ∧ (proc_cfg p' = ic ∨ CompareYAML (proc_cfg p') ic = true))
       ∧ ((∃ e, NewIntegration ic = Err e) → ¬ unchanged →
          integrations m' !! integrationKey (Name ic) = None))
  ∧ (∀ k p, integrations m !! k = Some p → foundConfig c k = false →
       EvDeleteConfig k ∈ tr ∧ EvStop (proc_addr p) ∈ tr
       ∧ integrations m' !! k = None).
Proof.
  intros Hcmp Hdone m' tr. unfold m', tr. clear m' tr.
  rewrite ApplyConfig_reconciles by done. cbn [fst snd integrations].
  split; [|split].
  - intros k. rewrite reconcile_registry.
    destruct (foundConfig c k) eqn:Hf; [|by intros [? ?]].
    intros _. by apply foundConfig_true.
  - intros Hnd ic Hic.
    destruct (NoDup_keys_split _ _ Hnd Hic) as (l1 & l2 & Hsplit & H1 & H2).
    assert (Hfound : foundConfig c (integrationKey (Name ic)) = true).
    { apply foundConfig_true. by exists ic. }
    rewrite reconcile_registry, Hfound, Hsplit.
    destruct (loop1_at_key l1 l2 ic (initial_applyState m) H1 H2) as [next ->].
    cbn [initial_applyState st_integrations]. cbn zeta.
    split.
    + intros _ [(p & Hp & Hpc)|[i Hi]].
      * rewrite Hp, Hpc. exists p. split; [done|by right].
      * rewrite Hi. destruct (integrations m !! _) as [p|]; [destruct (CompareYAML _ _) eqn:Hpc|].
        -- exists p. split; [done|by right].
        -- eexists. split; [done|by left].
        -- eexists. split; [done|by left].
    + intros [e He] Hno. rewrite He.
      destruct (integrations m !! _) as [p|] eqn:Hp; [|done].
      destruct (CompareYAML _ _) eqn:Hpc; [|done].
      exfalso. apply Hno. by exists p.
  - intros k p Hp Hf.
    assert (Hp1 : st_integrations (foldl applyIntegration (initial_applyState m) (Integrations c)) !! k = Some p).
    { rewrite loop1_other_key; [done|]. by apply foundConfig_false. }
    split; [|split].
    + eapply extends_elem; [apply reconcile_extends_loop2|].
      eapply sweep_events; [|done]. by apply elem_of_map_to_list.
    + eapply extends_elem; [apply reconcile_extends_loop2|].
      eapply sweep_events; [|done]. by apply elem_of_map_to_list.
    + by rewrite reconcile_registry, Hf.
Qed.

(** C4 (amended). A call of [ApplyConfig] on a stopped manager does no
    work: the manager is as before (registry, stored configuration) and
    nothing is started, stopped or sent to the instance manager. It fails
    with an error, except that a configuration equal to the stored one is
    answered nil as on a running manager. *)
Theorem ApplyConfig_after_Stop m c :
  ctx_done m = true →
  ApplyConfig m c =
  (m, [],
   if CompareYAML_ManagerConfig (cfg m) c then None
   else Some (errorString "Manager already stopped")).
Proof.
  intros Hdone. unfold ApplyConfig. rewrite Hdone.
  by destruct (CompareYAML_ManagerConfig (cfg m) c).
Qed.

(** ** The [failed] flag and the completion of every step *)

Lemma integrationKey_inj n1 n2 : integrationKey n1 = integrationKey n2 → n1 = n2.
Proof. unfold integrationKey. simpl. intros H. by simplify_eq. Qed.

Lemma applyIntegration_flag st ic : flag_ok st → flag_ok (applyIntegration st ic).
Proof.
  unfold flag_ok. intros H. apply_cases st ic; try done;
    rewrite ?existsb_app; simpl; rewrite <- ?H;
    by rewrite ?orb_false_r, ?orb_true_r.
Qed.

Lemma sweepIntegration_flag c st kp : flag_ok st → flag_ok (sweepIntegration c st kp).
Proof.
  unfold flag_ok, sweepIntegration. intros H. destruct (foundConfig c kp.1); [done|].
  simpl. rewrite existsb_app. simpl. by rewrite <- H, orb_false_r.
Qed.

Lemma reapplyIntegration_flag m c st kp : flag_ok st → flag_ok (reapplyIntegration m c st kp).
Proof.
  unfold flag_ok, reapplyIntegration. intros H. destruct kp as [key p].
  destruct (shouldCollect c p).
  - destruct (validator m _) as [validated [e|]]; [|destruct (im_ApplyConfig (im m) validated)];
      simpl; rewrite existsb_app; simpl; rewrite <- ?H;
      by rewrite ?orb_false_r, ?orb_true_r.
  - simpl. rewrite existsb_app. simpl. by rewrite <- H, orb_false_r.
Qed.

Lemma reconcile_flag m c st : flag_ok st → flag_ok (reconcile m c st).
Proof.
  intros H. unfold reconcile.
  apply (foldl_invariant flag_ok); [|intros; by apply reapplyIntegration_flag].
  apply (foldl_invariant flag_ok); [|intros; by apply sweepIntegration_flag].
  apply (foldl_invariant flag_ok); [done|intros; by apply applyIntegration_flag].
Qed.

Lemma handled_extends m ic st st' : extends st st' → handled m ic st → handled m ic st'.
Proof.
  intros Hext [[ok Hev]|Hrun]; [left|by right].
  exists ok. by eapply extends_elem.
Qed.

Lemma provenance_delete_emit m st k evs :
  provenance m st →
  provenance m {| st_integrations := delete k (st_integrations st); st_next := st_next st;
                  st_failed := st_failed st; st_trace := st_trace st ++ evs |}.
Proof.
  intros HJ k' p' Hk'. simpl in *. apply lookup_delete_Some in Hk' as [_ Hk'].
  destruct (HJ _ _ Hk') as [?|[? ?]]; [by left|right].
  split; [done|]. apply elem_of_app. by left.
Qed.

Lemma applyIntegration_handled m st ic :
  provenance m st →
  provenance m (applyIntegration st ic) ∧ handled m ic (applyIntegration st ic).
Proof.
  intros HJ. unfold provenance, handled.
  apply_cases st ic.
  - split; [done|]. destruct (HJ _ _ Hp) as [Horig|[Hk Hev]].
    + right. by exists p.
    + left. exists true. by rewrite <- (integrationKey_inj _ _ Hk).
  - split.
    + intros k p' Hk. apply lookup_insert_Some in Hk as [[<- <-]|[Hne Hk]]; simpl.
      * right. split; [done|]. apply elem_of_app. right. left.
      * apply lookup_delete_Some in Hk as [_ Hk].
        destruct (HJ _ _ Hk) as [?|[? ?]]; [by left|right].
        split; [done|]. rewrite <- app_assoc. apply elem_of_app. by left.
    + left. exists true. apply elem_of_app. right. left.
  - split.
    + intros k p' Hk. apply lookup_delete_Some in Hk as [_ Hk].
      destruct (HJ _ _ Hk) as [?|[? ?]]; [by left|right].
      split; [done|]. rewrite <- app_assoc. apply elem_of_app. by left.
    + left. exists false. apply elem_of_app. right. left.
  - split.
    + intros k p' Hk. apply lookup_insert_Some in Hk as [[<- <-]|[Hne Hk]]; simpl.
      * right. split; [done|]. apply elem_of_app. right. left.
      * destruct (HJ _ _ Hk) as [?|[? ?]]; [by left|right].
        split; [done|]. apply elem_of_app. by left.
    + left. exists true. apply elem_of_app. right. left.
  - split.
    + intros k p' Hk. destruct (HJ _ _ Hk) as [?|[? ?]]; [by left|right].
      split; [done|]. apply elem_of_app. by left.
    + left. exists false. apply elem_of_app. right. left.
Qed.

Lemma loop1_handled m c :
  ∀ ic, ic ∈ Integrations c →
    handled m ic (foldl applyIntegration (initial_applyState m) (Integrations c)).
Proof.
  destruct (foldl_each (provenance m) (handled m) applyIntegration
              (Integrations c) (initial_applyState m)) as [_ Hall]; [| | |done].
  - intros k p Hk. by left.
  - intros st ic _. apply applyIntegration_handled.
  - intros st ic ic' _ _. apply handled_extends, applyIntegration_extends.
Qed.

Lemma reapplied_extends m c kp st st' : extends st st' → reapplied m c kp st → reapplied m c kp st'.
Proof.
  unfold reapplied. intros Hext. cbn zeta. destruct (shouldCollect c kp.2).
  - destruct (validator m _) as [validated [e|]].
    + by apply extends_elem.
    + destruct Hext as [evs Hevs]. intros (t1 & t2 & Htr).
      exists t1, (t2 ++ evs). rewrite Hevs, Htr. by rewrite <- app_assoc.
  - by apply extends_elem.
Qed.

Lemma reapplyIntegration_reapplied m c st kp : reapplied m c kp (reapplyIntegration m c st kp).
Proof.
  unfold reapplied, reapplyIntegration. destruct kp as [key p]. cbn [fst snd]. cbn zeta.
  destruct (shouldCollect c p).
  - destruct (validator m _) as [validated [e|]];
      [|destruct (im_ApplyConfig (im m) validated) eqn:Him]; simpl.
    + apply elem_of_app. right. left.
    + by exists (st_trace st), [EvLogError "failed to apply integration. integration will not be scraped" (Name (proc_cfg p))].
    + by exists (st_trace st), [].
  - simpl. apply elem_of_app. right. left.
Qed.

Lemma loop3_reapplied m c l st :
  ∀ kp, kp ∈ l → reapplied m c kp (foldl (reapplyIntegration m c) st l).
Proof.
  destruct (foldl_each (λ _, True) (reapplied m c) (reapplyIntegration m c) l st)
    as [_ Hall]; [done| | |done].
  - intros st' kp _ _. split; [done|apply reapplyIntegration_reapplied].
  - intros st' kp kp' _ _. apply reapplied_extends, reapplyIntegration_extends.
Qed.

(** An entry that is not running unchanged is built: its integration is
    constructed and, on success, started and registered; on failure its
    scrape configuration is deleted and its key left unregistered. *)
Lemma applyIntegration_builds st ic :
  ¬ (∃ p, st_integrations st !! integrationKey (Name ic) = Some p
          ∧ CompareYAML (proc_cfg p) ic = true) →
  let st' := applyIntegration st ic in
  match NewIntegration ic with
  | Ok i =>
      EvNewIntegration (Name ic) true ∈ st_trace st'
      ∧ EvGo (integrationKey (Name ic)) (st_next st) ∈ st_trace st'
      ∧ st_integrations st' !! integrationKey (Name ic)
        = Some {| proc_addr := st_next st; proc_cfg := ic; proc_i := i |}
  | Err _ =>
      EvNewIntegration (Name ic) false ∈ st_trace st'
      ∧ EvDeleteConfig (integrationKey (Name ic)) ∈ st_trace st'
      ∧ st_integrations st' !! integrationKey (Name ic) = None
  end.
Proof.
  intros Hno. cbn zeta. apply_cases st ic.
  - exfalso. apply Hno. by exists p.
  - rewrite lookup_insert_eq. split; [|split; [|done]]; apply elem_of_app; right;
      [left|right; left].
  - rewrite lookup_delete_eq. split; [|split; [|done]]; apply elem_of_app; right;
      [left|right; right; left].
  - rewrite lookup_insert_eq. split; [|split; [|done]]; apply elem_of_app; right;
      [left|right; left].
  - split; [|split; [|done]]; apply elem_of_app; right; [left|right; right; left].
Qed.

Lemma reconcile_builds m c ic :
  NoDup (map (λ ic, integrationKey (Name ic)) (Integrations c)) →
  ic ∈ Integrations c →
  ¬ (∃ p, integrations m !! integrationKey (Name ic) = Some p
          ∧ CompareYAML (proc_cfg p) ic = true) →
  let st := reconcile m c (initial_applyState m) in
  match NewIntegration ic with
  | Ok i =>
      ∃ a, EvNewIntegration (Name ic) true ∈ st_trace st
        ∧ EvGo (integrationKey (Name ic)) a ∈ st_trace st
        ∧ st_integrations st !! integrationKey (Name ic)
          = Some {| proc_addr := a; proc_cfg := ic; proc_i := i |}
  | Err _ =>
      EvNewIntegration (Name ic) false ∈ st_trace st
      ∧ EvDeleteConfig (integrationKey (Name ic)) ∈ st_trace st
      ∧ st_integrations st !! integrationKey (Name ic) = None
  end.
Proof.
  intros Hnd Hic Hno st.
  destruct (NoDup_keys_split _ _ Hnd Hic) as (l1 & l2 & Hsplit & H1 & H2).
  set (s1 := foldl applyIntegration (initial_applyState m) l1).
  assert (Hno1 : ¬ (∃ p, st_integrations s1 !! integrationKey (Name ic) = Some p
                         ∧ CompareYAML (proc_cfg p) ic = true)).
  { unfold s1. by rewrite loop1_other_key. }
  pose proof (applyIntegration_builds s1 ic Hno1) as Hb. cbn zeta in Hb.
  assert (Hloop1 : foldl applyIntegration (initial_applyState m) (Integrations c)
                   = foldl applyIntegration (applyIntegration s1 ic) l2).
  { by rewrite Hsplit, foldl_app. }
  assert (Hext : extends (applyIntegration s1 ic) st).
  { eapply extends_trans; [|apply reconcile_extends_loop1]. rewrite Hloop1.
    apply foldl_extends. apply applyIntegration_extends. }
  assert (Hreg : st_integrations st !! integrationKey (Name ic)
                 = st_integrations (applyIntegration s1 ic) !! integrationKey (Name ic)).
  { unfold st. rewrite reconcile_registry, Hloop1.
    rewrite (proj2 (foundConfig_true c _)) by by exists ic.
    by rewrite loop1_other_key. }
  rewrite Hreg. destruct (NewIntegration ic) as [i|e].
  - destruct Hb as (Hn & Hg & Hr). exists (st_next s1).
    split; [by eapply extends_elem|]. split; [by eapply extends_elem|done].
  - destruct Hb as (Hn & Hd & Hr).
    split; [by eapply extends_elem|]. split; [by eapply extends_elem|done].
Qed.

(** C9 (amended). When [ApplyConfig] gets past its guards (the manager is
    not stopped and the configuration differs from the stored one), it
    returns an error exactly when a sub-step failed (building an
    integration, validating a generated configuration, applying it); and
    whether or not one failed, every step has run and the new
    configuration is stored: every entry has been dealt with (when the
    keys are distinct, an entry that was not running unchanged has had its
    integration built and then either started and registered, or, on
    failure, its scrape configuration deleted and its key left
    unregistered); every process registered before whose key has no entry
    has had its scrape configuration deleted and has been stopped and
    removed; and every process left in the registry has had its generated
    configuration validated and, when the validator accepted it, applied
    to the instance manager right after, or, when it is not to be scraped,
    its scrape configuration deleted. *)
Theorem ApplyConfig_best_effort m c :
  CompareYAML_ManagerConfig (cfg m) c = false →
  ctx_done m = false →
  let m' := (ApplyConfig m c).1.1 in
  let tr := (ApplyConfig m c).1.2 in
  let err := (ApplyConfig m c).2 in
  cfg m' = c
  ∧ err = (if existsb is_failure tr
           then Some (errorString "not all integrations were correctly updated")
           else None)
  ∧ (∀ ic, ic ∈ Integrations c →
       (∃ ok, EvNewIntegration (Name ic) ok ∈ tr)
       ∨ (∃ p, integrations m !! integrationKey (Name ic) = Some p
               ∧ CompareYAML (proc_cfg p) ic = true))
  ∧ (NoDup (map (λ ic, integrationKey (Name ic)) (Integrations c)) →
     ∀ ic, ic ∈ Integrations c →
       ¬ (∃ p, integrations m !! integrationKey (Name ic) = Some p
               ∧ CompareYAML (proc_cfg p) ic = true) →
       match NewIntegration ic with
       | Ok i =>
           ∃ a, EvNewIntegration (Name ic) true ∈ tr
             ∧ EvGo (integrationKey (Name ic)) a ∈ tr
             ∧ integrations m' !! integrationKey (Name ic)
               = Some {| proc_addr := a; proc_cfg := ic; proc_i := i |}
       | Err _ =>
           EvNewIntegration (Name ic) false ∈ tr
           ∧ EvDeleteConfig (integrationKey (Name ic)) ∈ tr
           ∧ integrations m' !! integrationKey (Name ic) = None
       end)
  ∧ (∀ k p, integrations m !! k = Some p → foundConfig c k = false →
       EvDeleteConfig k ∈ tr ∧ EvStop (proc_addr p) ∈ tr
       ∧ integrations m' !! k = None)
  ∧ (∀ k p, integrations m' !! k = Some p →
       let instanceConfig :=
         instanceConfigForIntegration (hostname m) (proc_cfg p) (proc_i p) c in
       if shouldCollect c p then
         match validator m instanceConfig with
         | (_, Some _) => EvValidate k instanceConfig false ∈ tr
         | (validated, None) =>
             ∃ t1 t2, tr =
               t1 ++ EvValidate k instanceConfig true
                  :: EvApplyConfig validated (is_nil (im_ApplyConfig (im m) validated)) :: t2
         end
       else EvDeleteConfig k ∈ tr).
Proof.
  intros Hcmp Hdone m' tr err. unfold m', tr, err. clear m' tr err.
  rewrite ApplyConfig_reconciles by done. cbn [fst snd integrations cfg].
  split; [done|]. split; [|split; [|split; [|split]]].
  - by rewrite (reconcile_flag m c (initial_applyState m)).
  - intros ic Hic. eapply (handled_extends m ic); [apply reconcile_extends_loop1|].
    by apply loop1_handled.
  - intros Hnd ic Hic Hno. by apply reconcile_builds.
  - intros k p Hp Hf.
    assert (Hp1 : st_integrations (foldl applyIntegration (initial_applyState m) (Integrations c)) !! k = Some p).
    { rewrite loop1_other_key; [done|]. by apply foundConfig_false. }
    split; [|split].
    + eapply extends_elem; [apply reconcile_extends_loop2|].
      eapply sweep_events; [|done]. by apply elem_of_map_to_list.
    + eapply extends_elem; [apply reconcile_extends_loop2|].
      eapply sweep_events; [|done]. by apply elem_of_map_to_list.
    + by rewrite reconcile_registry, Hf.
  - intros k p Hk.
    apply (loop3_reapplied m c _ _ (k, p)).
    apply elem_of_map_to_list.
    unfold reconcile in Hk. by rewrite (proj1 (loop3_registry m c _ _)) in Hk.
Qed.

(** ** A process whose configuration is unchanged *)

Lemma applyIntegration_keeps k p st ic :
  (integrationKey (Name ic) = k → CompareYAML (proc_cfg p) ic = true) →
  keeps k p st → keeps k p (applyIntegration st ic).
Proof.
  intros Hsame (Hok & Hk & Hstop & Hgo & Hnew).
  destruct (decide (integrationKey (Name ic) = k)) as [Heq|Hne].
  - unfold applyIntegration. rewrite Heq, Hk, (Hsame Heq).
    exact (conj Hok (conj Hk (conj Hstop (conj Hgo Hnew)))).
  - split; [by apply applyIntegration_ok|].
    split; [by rewrite applyIntegration_other_key|].
    assert (Haddr : ∀ q, st_integrations st !! integrationKey (Name ic) = Some q →
                         proc_addr q ≠ proc_addr p).
    { intros q Hq Ha. apply Hne. by apply (proj2 Hok _ _ q p). }
    assert (Hname : ∀ n, integrationKey n = k → n ≠ Name ic) by (by intros n <- ->).
    apply_cases st ic.
    + exact (conj Hstop (conj Hgo Hnew)).
    + specialize (Haddr _ eq_refl). repeat split.
      * set_unfold. intuition congruence.
      * intros a. specialize (Hgo a). set_unfold. intuition congruence.
      * intros n ok Hn. specialize (Hnew n ok Hn). specialize (Hname n Hn).
        set_unfold. intuition congruence.
    + specialize (Haddr _ eq_refl). repeat split.
      * set_unfold. intuition congruence.
      * intros a. specialize (Hgo a). set_unfold. intuition congruence.
      * intros n ok Hn. specialize (Hnew n ok Hn). specialize (Hname n Hn).
        set_unfold. intuition congruence.
    + repeat split.
      * set_unfold. intuition congruence.
      * intros a. specialize (Hgo a). set_unfold. intuition congruence.
      * intros n ok Hn. specialize (Hnew n ok Hn). specialize (Hname n Hn).
        set_unfold. intuition congruence.
    + repeat split.
      * set_unfold. intuition congruence.
      * intros a. specialize (Hgo a). set_unfold. intuition congruence.
      * intros n ok Hn. specialize (Hnew n ok Hn). specialize (Hname n Hn).
        set_unfold. intuition congruence.
Qed.

Lemma loop1_keeps k p l st :
  (∀ ic, ic ∈ l → integrationKey (Name ic) = k → CompareYAML (proc_cfg p) ic = true) →
  keeps k p st → keeps k p (foldl applyIntegration st l).
Proof.
  intros Hl Hst. apply (foldl_invariant (keeps k p)); [done|].
  intros st' ic Hic. apply applyIntegration_keeps. by apply Hl.
Qed.

Lemma sweep_no_stop c (l : list (string * integrationProcess)) st a :
  (∀ kp, kp ∈ l → foundConfig c kp.1 = false → proc_addr kp.2 ≠ a) →
  EvStop a ∉ st_trace st →
  EvStop a ∉ st_trace (foldl (sweepIntegration c) st l).
Proof.
  intros Hl Hst.
  apply (foldl_invariant (λ st', EvStop a ∉ st_trace st')); [done|].
  intros st' kp Hkp Hst'. unfold sweepIntegration.
  destruct (foundConfig c kp.1) eqn:Hf; [done|]. simpl.
  specialize (Hl kp Hkp Hf). set_unfold. intuition congruence.
Qed.

Lemma sweep_quiet c (l : list (string * integrationProcess)) st k :
  quiet k (st_trace st) → quiet k (st_trace (foldl (sweepIntegration c) st l)).
Proof.
  intros Hst. apply (foldl_invariant (λ st', quiet k (st_trace st'))); [done|].
  intros st' kp _ [Hgo Hnew]. unfold sweepIntegration.
  destruct (foundConfig c kp.1); [done|]. simpl. split.
  - intros a. specialize (Hgo a). set_unfold. intuition congruence.
  - intros n ok Hn. specialize (Hnew n ok Hn). set_unfold. intuition congruence.
Qed.

Lemma loop3_no_stop m c (l : list (string * integrationProcess)) st a :
  EvStop a ∉ st_trace st →
  EvStop a ∉ st_trace (foldl (reapplyIntegration m c) st l).
Proof.
  intros Hst.
  apply (foldl_invariant (λ st', EvStop a ∉ st_trace st')); [done|].
  intros st' [key p] _ Hst'. unfold reapplyIntegration.
  destruct (shouldCollect c p).
  - destruct (validator m _) as [validated [e|]]; [|destruct (im_ApplyConfig (im m) validated)];
      simpl; set_unfold; intuition congruence.
  - simpl. set_unfold. intuition congruence.
Qed.

Lemma loop3_quiet m c (l : list (string * integrationProcess)) st k :
  quiet k (st_trace st) → quiet k (st_trace (foldl (reapplyIntegration m c) st l)).
Proof.
  intros Hst. apply (foldl_invariant (λ st', quiet k (st_trace st'))); [done|].
  intros st' [key p] _ [Hgo Hnew]. unfold reapplyIntegration.
  destruct (shouldCollect c p).
  - destruct (validator m _) as [validated [e|]]; [|destruct (im_ApplyConfig (im m) validated)];
      simpl; (split; [intros a; specialize (Hgo a)|intros n ok Hn; specialize (Hnew n ok Hn)]);
      set_unfold; intuition congruence.
  - simpl. split; [intros a; specialize (Hgo a)|intros n ok Hn; specialize (Hnew n ok Hn)];
      set_unfold; intuition congruence.
Qed.

(** A process registered under a key all of whose entries compare equal to
    its configuration goes through the three loops untouched. *)
Lemma reconcile_keeps m c k p :
  Manager_ok m →
  integrations m !! k = Some p →
  (∃ ic, ic ∈ Integrations c ∧ integrationKey (Name ic) = k) →
  (∀ ic, ic ∈ Integrations c → integrationKey (Name ic) = k →
     CompareYAML (proc_cfg p) ic = true) →
  let st := reconcile m c (initial_applyState m) in
  st_integrations st !! k = Some p
  ∧ (EvStop (proc_addr p) ∉ st_trace st)
  ∧ quiet k (st_trace st).
Proof.
  intros Hok Hk Hex Hall st.
  assert (H1 : keeps k p (foldl applyIntegration (initial_applyState m) (Integrations c))).
  { apply loop1_keeps; [done|]. split; [done|]. split; [done|]. split; [apply not_elem_of_nil|].
    split; intros; apply not_elem_of_nil. }
  destruct H1 as (Hok1 & Hk1 & Hstop1 & Hq1).
  assert (Hf : foundConfig c k = true) by by apply foundConfig_true.
  split; [|split].
  - unfold st. by rewrite reconcile_registry, Hf.
  - unfold st, reconcile. apply loop3_no_stop. apply sweep_no_stop; [|done].
    intros [k' p'] Hin Hf' Ha. simpl in *.
    apply elem_of_map_to_list in Hin.
    assert (k' = k) by by apply (proj2 Hok1 _ _ p' p). congruence.
  - unfold st, reconcile. by apply loop3_quiet, sweep_quiet.
Qed.

(** ** A process whose configuration changed *)

Lemma first_changed (l : list Config) k p :
  (∃ ic, ic ∈ l ∧ integrationKey (Name ic) = k ∧ CompareYAML (proc_cfg p) ic = false) →
  ∃ l1 ic l2, l = l1 ++ ic :: l2
    ∧ integrationKey (Name ic) = k
    ∧ CompareYAML (proc_cfg p) ic = false
    ∧ (∀ ic', ic' ∈ l1 → integrationKey (Name ic') = k →
         CompareYAML (proc_cfg p) ic' = true).
Proof.
  induction l as [|ic0 l IH]; intros (ic & Hin & Hk & Hcmp).
  - by apply elem_of_nil in Hin.
  - destruct (decide (integrationKey (Name ic0) = k ∧ CompareYAML (proc_cfg p) ic0 = false))
      as [[Hk0 Hcmp0]|Hno].
    + exists [], ic0, l. repeat split; try done. intros ic' Hic'. by apply elem_of_nil in Hic'.
    + destruct IH as (l1 & ic1 & l2 & -> & Hk1 & Hcmp1 & Hbefore).
      { exists ic. split; [|done]. apply elem_of_cons in Hin as [->|Hin]; [|done].
        exfalso. by apply Hno. }
      exists (ic0 :: l1), ic1, l2. repeat split; try done.
      intros ic' Hic' Hk'. apply elem_of_cons in Hic' as [->|Hic']; [|by apply Hbefore].
      destruct (CompareYAML (proc_cfg p) ic0) eqn:Hc; [done|]. exfalso. by apply Hno.
Qed.

Lemma applyIntegration_replaced k p st ic :
  replaced k p st → replaced k p (applyIntegration st ic).
Proof.
  intros [Hlt Hq]. split.
  - pose proof (applyIntegration_next st ic). lia.
  - destruct (decide (integrationKey (Name ic) = k)) as [<-|Hne].
    + rewrite applyIntegration_at_key. cbn zeta. intros q.
      destruct (st_integrations st !! _) as [p0|] eqn:Hp0;
        [destruct (CompareYAML (proc_cfg p0) ic)|]; try destruct (NewIntegration ic);
        intros Hsome; simplify_eq; simpl; try lia; by apply Hq.
    + intros q. rewrite applyIntegration_other_key by done. apply Hq.
Qed.

Lemma applyIntegration_replaces k p st ic :
  keeps k p st →
  integrationKey (Name ic) = k →
  CompareYAML (proc_cfg p) ic = false →
  (∃ evs, st_trace (applyIntegration st ic) = st_trace st ++ EvStop (proc_addr p) :: evs)
  ∧ replaced k p (applyIntegration st ic).
Proof.
  intros (Hok & Hk & _) Hkey Hcmp.
  pose proof (proj1 Hok _ _ Hk) as Hlt.
  unfold applyIntegration, startIntegration, unregister, set_failed, emit.
  rewrite Hkey, Hk, Hcmp. destruct (NewIntegration ic) as [i|e]; simpl.
  - split; [eexists; by rewrite <- app_assoc|]. split; simpl; [lia|].
    intros q. rewrite lookup_insert_eq. intros [= <-]. simpl. lia.
  - split; [eexists; by rewrite <- app_assoc|]. split; simpl; [lia|].
    intros q. by rewrite lookup_delete_eq.
Qed.

Lemma reconcile_replaces m c k p :
  Manager_ok m →
  integrations m !! k = Some p →
  (∃ ic, ic ∈ Integrations c ∧ integrationKey (Name ic) = k
         ∧ CompareYAML (proc_cfg p) ic = false) →
  let st := reconcile m c (initial_applyState m) in
  ∃ t1 t2, st_trace st = t1 ++ EvStop (proc_addr p) :: t2
    ∧ quiet k t1
    ∧ (EvStop (proc_addr p) ∉ t1)
    ∧ (∀ q, st_integrations st !! k = Some q → proc_addr q ≠ proc_addr p).
Proof.
  intros Hok Hk Hex st.
  destruct (first_changed _ _ _ Hex) as (l1 & ic & l2 & Hsplit & Hkey & Hcmp & Hbefore).
  set (s1 := foldl applyIntegration (initial_applyState m) l1).
  assert (H1 : keeps k p s1).
  { apply loop1_keeps; [done|]. split; [done|]. split; [done|]. split; [apply not_elem_of_nil|].
    split; intros; apply not_elem_of_nil. }
  destruct (applyIntegration_replaces k p s1 ic H1 Hkey Hcmp) as [[evs Hevs] Hrep].
  set (s3 := foldl applyIntegration (applyIntegration s1 ic) l2).
  assert (Hs3 : foldl applyIntegration (initial_applyState m) (Integrations c) = s3).
  { rewrite Hsplit, foldl_app. done. }
  assert (Hrep3 : replaced k p s3).
  { apply (foldl_invariant (replaced k p)); [done|]. intros. by apply applyIntegration_replaced. }
  assert (Hext : extends (applyIntegration s1 ic) st).
  { eapply extends_trans; [|apply reconcile_extends_loop1]. rewrite Hs3.
    apply foldl_extends. apply applyIntegration_extends. }
  destruct Hext as [evs' Hevs'].
  exists (st_trace s1), (evs ++ evs'). split; [|split; [|split]].
  - rewrite Hevs', Hevs. by rewrite <- app_assoc.
  - apply H1.
  - apply H1.
  - intros q. unfold st. rewrite reconcile_registry, Hs3.
    destruct (foundConfig c k); [apply Hrep3|done].
Qed.

(** ** Live processes *)

Lemma live_inv_one live ints : live_inv live ints → at_most_one_per_key live.
Proof.
  intros HI k a1 a2 H1 H2.
  destruct (HI _ _ H1) as (q1 & Hq1 & <-). destruct (HI _ _ H2) as (q2 & Hq2 & <-).
  congruence.
Qed.

Lemma live_inv_stop live ints k p :
  live_inv live ints → ints !! k = Some p →
  live_inv (live_step live (EvStop (proc_addr p))) (delete k ints).
Proof.
  intros HI Hk k' a Hin. simpl in Hin.
  apply list_elem_of_filter in Hin as [Hne Hin]. simpl in Hne.
  destruct (HI _ _ Hin) as (q & Hq & <-).
  exists q. split; [|done]. rewrite lookup_delete_ne; [done|].
  intros <-. congruence.
Qed.

Lemma live_inv_go live ints k q :
  live_inv live ints → ints !! k = None →
  live_inv (live_step live (EvGo k (proc_addr q))) (<[k := q]> ints).
Proof.
  intros HI Hk k' a Hin. simpl in Hin.
  apply elem_of_cons in Hin as [[= -> ->]|Hin].
  - exists q. by rewrite lookup_insert_eq.
  - destruct (HI _ _ Hin) as (q' & Hq' & <-). exists q'. split; [|done].
    rewrite lookup_insert_ne; [done|]. intros <-. congruence.
Qed.

Lemma always_one_app live tr evs :
  always_one live (tr ++ evs) ↔ always_one live tr ∧ always_one (live_after live tr) evs.
Proof.
  revert live. induction tr as [|ev tr IH]; intros live; simpl.
  - split; [intros H; split; [split; [|done]|done]|by intros [_ ?]].
    destruct evs; apply H.
  - rewrite IH. tauto.
Qed.

Lemma always_one_prefix live tr tr' :
  always_one live tr → tr' `prefix_of` tr → at_most_one_per_key (live_after live tr').
Proof.
  intros H [rest ->]. apply always_one_app in H as [_ H]. destruct rest; apply H.
Qed.

Lemma good_init ints : good (registered ints) ints [].
Proof.
  assert (HI : live_inv (registered ints) ints).
  { intros k a Hin. apply list_elem_of_fmap in Hin as ([k' q] & [= -> ->] & Hin).
    exists q. split; [|done]. by apply elem_of_map_to_list. }
  split; [done|]. split; [|done]. by apply (live_inv_one _ ints).
Qed.

Lemma good_step live0 ints ints' tr ev :
  good live0 ints tr →
  live_inv (live_step (live_after live0 tr) ev) ints' →
  good live0 ints' (tr ++ [ev]).
Proof.
  intros [HI Hall] HI'. unfold good, live_after in *. rewrite foldl_app. simpl.
  split; [done|]. apply always_one_app. split; [done|].
  simpl. split; [by apply (live_inv_one _ ints)|]. split; [|done].
  by apply (live_inv_one _ ints').
Qed.

Lemma good_stop live0 ints tr k p :
  good live0 ints tr → ints !! k = Some p →
  good live0 (delete k ints) (tr ++ [EvStop (proc_addr p)]).
Proof.
  intros Hg Hk. apply (good_step live0 ints); [done|]. apply live_inv_stop; [apply Hg|done].
Qed.

Lemma good_go live0 ints tr k q :
  good live0 ints tr → ints !! k = None →
  good live0 (<[k := q]> ints) (tr ++ [EvGo k (proc_addr q)]).
Proof.
  intros Hg Hk. apply (good_step live0 ints); [done|]. apply live_inv_go; [apply Hg|done].
Qed.

Lemma good_other live0 ints tr ev :
  good live0 ints tr →
  (∀ live, live_step live ev = live) →
  good live0 ints (tr ++ [ev]).
Proof.
  intros Hg Hev. apply (good_step live0 ints); [done|]. rewrite Hev. apply Hg.
Qed.

Lemma app_two {A} (l : list A) (x y : A) : l ++ [x; y] = (l ++ [x]) ++ [y].
Proof. by rewrite <- app_assoc. Qed.

Lemma app_three {A} (l : list A) (x y z : A) : l ++ [x; y; z] = ((l ++ [x]) ++ [y]) ++ [z].
Proof. by rewrite <- !app_assoc. Qed.

Lemma applyIntegration_good live0 st ic :
  good live0 (st_integrations st) (st_trace st) →
  good live0 (st_integrations (applyIntegration st ic)) (st_trace (applyIntegration st ic)).
Proof.
  intros Hg. apply_cases st ic.
  - done.
  - rewrite app_two.
    apply (good_go live0 _ _ _ {| proc_addr := st_next st; proc_cfg := ic; proc_i := i |});
      [|by rewrite lookup_delete_eq].
    apply good_other; [|done]. by apply good_stop.
  - rewrite app_three. apply good_other; [|done]. apply good_other; [|done].
    apply good_other; [|done]. by apply good_stop.
  - rewrite app_two.
    apply (good_go live0 _ _ _ {| proc_addr := st_next st; proc_cfg := ic; proc_i := i |});
      [|done].
    by apply good_other.
  - rewrite app_three. by repeat (apply good_other; [|done]).
Qed.

Lemma sweep_good live0 c (l : list (string * integrationProcess)) : ∀ st,
  NoDup l.*1 →
  (∀ k p, (k, p) ∈ l → st_integrations st !! k = Some p) →
  good live0 (st_integrations st) (st_trace st) →
  good live0 (st_integrations (foldl (sweepIntegration c) st l))
             (st_trace (foldl (sweepIntegration c) st l)).
Proof.
  induction l as [|[k p] l IH]; intros st Hnd Hl Hg; [done|].
  cbn [foldl]. rewrite fmap_cons in Hnd. apply NoDup_cons in Hnd as [Hnotin Hnd].
  apply IH; [done| |].
  - intros k' p' Hin. unfold sweepIntegration. cbn [fst snd].
    destruct (foundConfig c k); [apply Hl; by right|]. simpl.
    rewrite lookup_delete_ne; [apply Hl; by right|].
    intros <-. apply Hnotin. apply list_elem_of_fmap. by exists (k, p').
  - unfold sweepIntegration. cbn [fst snd].
    destruct (foundConfig c k); [done|]. simpl. rewrite app_two.
    apply good_stop; [by apply good_other|]. apply Hl. left.
Qed.

Lemma reapplyIntegration_good live0 m c st kp :
  good live0 (st_integrations st) (st_trace st) →
  good live0 (st_integrations (reapplyIntegration m c st kp))
             (st_trace (reapplyIntegration m c st kp)).
Proof.
  intros Hg. unfold reapplyIntegration. destruct kp as [key p].
  destruct (shouldCollect c p).
  - destruct (validator m _) as [validated [e|]]; [|destruct (im_ApplyConfig (im m) validated)];
      simpl; rewrite ?app_two, ?app_three; by repeat (apply good_other; [|done]).
  - simpl. by apply good_other.
Qed.

Lemma reconcile_good m c :
  let st := reconcile m c (initial_applyState m) in
  good (registered (integrations m)) (st_integrations st) (st_trace st).
Proof.
  intros st. unfold st, reconcile.
  apply (foldl_invariant
           (λ st', good (registered (integrations m)) (st_integrations st') (st_trace st')));
    [|intros; by apply reapplyIntegration_good].
  apply sweep_good.
  - apply NoDup_fst_map_to_list.
  - intros k p Hin. by apply elem_of_map_to_list.
  - apply (foldl_invariant
             (λ st', good (registered (integrations m)) (st_integrations st') (st_trace st')));
      [apply good_init|intros; by apply applyIntegration_good].
Qed.

Lemma applyIntegration_rebuilds k p st ic :
  keeps k p st →
  integrationKey (Name ic) = k →
  CompareYAML (proc_cfg p) ic = false →
  let st' := applyIntegration st ic in
  match NewIntegration ic with
  | Ok i =>
      st_trace st' = st_trace st ++
        [EvStop (proc_addr p); EvNewIntegration (Name ic) true; EvGo k (st_next st)]
      ∧ st_integrations st' !! k
        = Some {| proc_addr := st_next st; proc_cfg := ic; proc_i := i |}
  | Err _ =>
      st_trace st' = st_trace st ++
        [EvStop (proc_addr p); EvNewIntegration (Name ic) false;
         EvLogError "failed to initialize integration. it will not run or be scraped" (Name ic);
         EvDeleteConfig k]
      ∧ st_integrations st' !! k = None
  end.
Proof.
  intros (_ & Hk & _) Hkey Hcmp. cbn zeta.
  unfold applyIntegration, startIntegration, unregister, set_failed, emit.
  rewrite Hkey, Hk, Hcmp. destruct (NewIntegration ic) as [i|e]; simpl.
  - rewrite lookup_insert_eq. by rewrite <- app_assoc.
  - rewrite lookup_delete_eq. by rewrite <- app_assoc.
Qed.

(** The first entry whose configuration differs from the one of the
    process registered under its key: the process is stopped, then the
    integration of the entry is built, and then started and registered, or
    given up. *)
Lemma reconcile_rebuilds m c k p :
  Manager_ok m →
  integrations m !! k = Some p →
  (∃ ic, ic ∈ Integrations c ∧ integrationKey (Name ic) = k
         ∧ CompareYAML (proc_cfg p) ic = false) →
  let st := reconcile m c (initial_applyState m) in
  ∃ ic t1 t2,
    ic ∈ Integrations c ∧ integrationKey (Name ic) = k
    ∧ CompareYAML (proc_cfg p) ic = false
    ∧ quiet k t1
    ∧ (EvStop (proc_addr p) ∉ t1)
    ∧ match NewIntegration ic with
      | Ok i =>
          ∃ a, (next_addr m ≤ a)%nat
            ∧ st_trace st = t1 ++ EvStop (proc_addr p)
                :: EvNewIntegration (Name ic) true :: EvGo k a :: t2
            ∧ (NoDup (map (λ ic, integrationKey (Name ic)) (Integrations c)) →
               st_integrations st !! k
               = Some {| proc_addr := a; proc_cfg := ic; proc_i := i |})
      | Err _ =>
          st_trace st = t1 ++ EvStop (proc_addr p)
            :: EvNewIntegration (Name ic) false
            :: EvLogError "failed to initialize integration. it will not run or be scraped" (Name ic)
            :: EvDeleteConfig k :: t2
          ∧ (NoDup (map (λ ic, integrationKey (Name ic)) (Integrations c)) →
             st_integrations st !! k = None)
      end.
Proof.
  intros Hok Hk Hex st.
  destruct (first_changed _ _ _ Hex) as (l1 & ic & l2 & Hsplit & Hkey & Hcmp & Hbefore).
  set (s1 := foldl applyIntegration (initial_applyState m) l1).
  assert (H1 : keeps k p s1).
  { apply loop1_keeps; [done|]. split; [done|]. split; [done|]. split; [apply not_elem_of_nil|].
    split; intros; apply not_elem_of_nil. }
  pose proof (applyIntegration_rebuilds k p s1 ic H1 Hkey Hcmp) as Hb. cbn zeta in Hb.
  assert (Hloop1 : foldl applyIntegration (initial_applyState m) (Integrations c)
                   = foldl applyIntegration (applyIntegration s1 ic) l2).
  { by rewrite Hsplit, foldl_app. }
  assert (Hext : extends (applyIntegration s1 ic) st).
  { eapply extends_trans; [|apply reconcile_extends_loop1]. rewrite Hloop1.
    apply foldl_extends. apply applyIntegration_extends. }
  destruct Hext as [evs Hevs].
  assert (Hreg : NoDup (map (λ ic, integrationKey (Name ic)) (Integrations c)) →
                 st_integrations st !! k = st_integrations (applyIntegration s1 ic) !! k).
  { intros Hnd. unfold st. rewrite reconcile_registry, Hloop1.
    rewrite (proj2 (foundConfig_true c k)).
    - rewrite loop1_other_key; [done|]. intros ic' Hic' Heq.
      rewrite Hsplit, map_app in Hnd. cbn [map] in Hnd.
      apply NoDup_app in Hnd as (_ & _ & Hnd). apply NoDup_cons in Hnd as [Hnot _].
      apply Hnot. rewrite Hkey, <- Heq. apply list_elem_of_fmap. by exists ic'.
    - exists ic. split; [|done]. rewrite Hsplit. apply elem_of_app. right. left. }
  assert (Hin : ic ∈ Integrations c).
  { rewrite Hsplit. apply elem_of_app. right. left. }
  exists ic, (st_trace s1), evs.
  split; [done|]. split; [done|]. split; [done|].
  split; [apply H1|]. split; [apply H1|].
  destruct (NewIntegration ic) as [i|e]; destruct Hb as [Htr Hlook].
  - exists (st_next s1). split; [apply (loop1_next l1 (initial_applyState m))|].
    split.
    + rewrite Hevs, Htr. by rewrite <- app_assoc.
    + intros Hnd. by rewrite (Hreg Hnd).
  - split.
    + rewrite Hevs, Htr. by rewrite <- app_assoc.
    + intros Hnd. by rewrite (Hreg Hnd).
Qed.

(** C2 (amended). For a key [k] under which a process [p] is registered
    when [ApplyConfig] is called (on a manager whose registry is well
    formed): if every entry of the new configuration with that key
    compares equal to the configuration of [p], then [p] is not stopped
    during the call and is still the process registered under [k] after
    it. If an entry with that key differs, then a call that ends at one of
    its guards (stopped manager, configuration equal to the stored one)
    does nothing, and a call that gets past them stops [p] before anything
    is built or started for [k], then builds the integration of the first
    differing entry, and then either starts the new process at a fresh
    address and registers it under [k], or, when the integration cannot be
    built, logs, deletes the scrape configuration and leaves [k]
    unregistered; [p] is no longer registered under [k] afterwards, and
    when the keys of the configuration are distinct the registry holds
    exactly that new process under [k] (or nothing, on failure). In every
    case, after each event of the call at most one process is live under
    any key. *)
Theorem ApplyConfig_process_identity m c k p :
  Manager_ok m →
  integrations m !! k = Some p →
  let m' := (ApplyConfig m c).1.1 in
  let tr := (ApplyConfig m c).1.2 in
  ((∃ ic, ic ∈ Integrations c ∧ integrationKey (Name ic) = k) →
   (∀ ic, ic ∈ Integrations c → integrationKey (Name ic) = k →
      CompareYAML (proc_cfg p) ic = true) →
   (EvStop (proc_addr p) ∉ tr) ∧ integrations m' !! k = Some p)
  ∧ ((∃ ic, ic ∈ Integrations c ∧ integrationKey (Name ic) = k
            ∧ CompareYAML (proc_cfg p) ic = false) →
     if CompareYAML_ManagerConfig (cfg m) c || ctx_done m
     then m' = m ∧ tr = []
     else
       (∃ ic t1 t2,
          ic ∈ Integrations c ∧ integrationKey (Name ic) = k
          ∧ CompareYAML (proc_cfg p) ic = false
          ∧ quiet k t1
          ∧ (EvStop (proc_addr p) ∉ t1)
          ∧ match NewIntegration ic with
            | Ok i =>
                ∃ a, (next_addr m ≤ a)%nat
                  ∧ tr = t1 ++ EvStop (proc_addr p)
                      :: EvNewIntegration (Name ic) true :: EvGo k a :: t2
                  ∧ (NoDup (map (λ ic, integrationKey (Name ic)) (Integrations c)) →
                     integrations m' !! k
                     = Some {| proc_addr := a; proc_cfg := ic; proc_i := i |})
            | Err _ =>
                tr = t1 ++ EvStop (proc_addr p)
                  :: EvNewIntegration (Name ic) false
                  :: EvLogError "failed to initialize integration. it will not run or be scraped" (Name ic)
                  :: EvDeleteConfig k :: t2
                ∧ (NoDup (map (λ ic, integrationKey (Name ic)) (Integrations c)) →
                   integrations m' !! k = None)
            end)
       ∧ (∀ q, integrations m' !! k = Some q → proc_addr q ≠ proc_addr p))
  ∧ (∀ tr', tr' `prefix_of` tr →
       at_most_one_per_key (live_after (registered (integrations m)) tr')).
Proof.
  intros Hok Hk m' tr. unfold m', tr. clear m' tr.
  destruct (CompareYAML_ManagerConfig (cfg m) c) eqn:Hcmp;
    [|destruct (ctx_done m) eqn:Hdone].
  - unfold ApplyConfig. rewrite Hcmp. cbn [fst snd orb].
    split; [intros _ _; split; [apply not_elem_of_nil|done]|]. split; [done|].
    intros tr' Hpre. apply (always_one_prefix _ []); [|done]. apply good_init.
  - unfold ApplyConfig. rewrite Hcmp, Hdone. cbn [fst snd orb].
    split; [intros _ _; split; [apply not_elem_of_nil|done]|]. split; [done|].
    intros tr' Hpre. apply (always_one_prefix _ []); [|done]. apply good_init.
  - rewrite ApplyConfig_reconciles by done. cbn [fst snd orb integrations].
    split; [|split].
    + intros Hex Hall. destruct (reconcile_keeps m c k p Hok Hk Hex Hall) as (H1 & H2 & _).
      done.
    + intros Hex. split; [by apply reconcile_rebuilds|].
      destruct (reconcile_replaces m c k p Hok Hk Hex) as (t1 & t2 & _ & _ & _ & Hq).
      exact Hq.
    + intros tr' Hpre. eapply always_one_prefix; [|done]. apply reconcile_good.
Qed.

(** ** The registry stays well formed *)

Lemma registry_ok_subset ints ints' next next' :
  (∀ k p, ints' !! k = Some p → ints !! k = Some p) →
  (next ≤ next')%nat →
  registry_ok ints next → registry_ok ints' next'.
Proof.
  intros Hsub Hle [Hlt Hinj]. split.
  - intros k p Hk. specialize (Hlt _ _ (Hsub _ _ Hk)). lia.
  - intros k1 k2 p1 p2 H1 H2. apply Hinj; by apply Hsub.
Qed.

Lemma reconcile_next m c st :
  st_next (reconcile m c st) = st_next (foldl applyIntegration st (Integrations c)).
Proof.
  unfold reconcile. rewrite (proj2 (loop3_registry m c _ _)).
  apply (foldl_invariant
           (λ st', st_next st' = st_next (foldl applyIntegration st (Integrations c)))); [done|].
  intros st' kp _ <-. apply sweepIntegration_next.
Qed.

Lemma ApplyConfig_ok m c : Manager_ok m → Manager_ok (ApplyConfig m c).1.1.
Proof.
  intros Hok. unfold ApplyConfig.
  destruct (CompareYAML_ManagerConfig (cfg m) c); [done|].
  destruct (ctx_done m); [done|]. unfold Manager_ok. cbn [fst integrations next_addr].
  apply (registry_ok_subset
           (st_integrations (foldl applyIntegration (initial_applyState m) (Integrations c)))
           _ (st_next (foldl applyIntegration (initial_applyState m) (Integrations c)))).
  - intros k p. rewrite reconcile_registry. by destruct (foundConfig c k).
  - by rewrite reconcile_next.
  - by apply loop1_ok.
Qed.

Lemma Stop_ok m : Manager_ok m → Manager_ok (Stop m).
Proof. done. Qed.

Lemma NewManager_ok c im0 validate host m tr :
  NewManager c im0 validate host = Ok (m, tr) → Manager_ok m.
Proof.
  unfold NewManager. destruct host as [h|e]; [|done].
  set (m0 := {| cfg := zero_ManagerConfig; hostname := h; ctx_done := false; im := im0;
                validator := validate; integrations := ∅; next_addr := 0 |}).
  pose proof (ApplyConfig_ok m0 c) as Hok.
  destruct (ApplyConfig m0 c) as [[m1 tr1] [e|]]; [done|].
  intros [= <- <-]. apply Hok. split.
  - intros k p Hk. cbn in Hk. by rewrite lookup_empty in Hk.
  - intros k1 k2 p1 p2 Hk. cbn in Hk. by rewrite lookup_empty in Hk.
Qed.

(** * The projected scrape configuration *)

Lemma split_slash_nonempty s : ∃ seg segs, split_slash s = seg :: segs.
Proof.
  destruct s as [|ch s]; simpl; [by eexists _, _|].
  destruct (decide (ch = slash)); [by eexists _, _|].
  destruct (split_slash s); by eexists _, _.
Qed.

Lemma split_slash_app s1 s2 :
  split_slash (s1 +:+ String slash s2) = split_slash s1 ++ split_slash s2.
Proof.
  induction s1 as [|ch s1 IH]; simpl.
  - by destruct (decide (slash = slash)).
  - destruct (decide (ch = slash)); [by rewrite IH|].
    rewrite IH. by destruct (split_slash_nonempty s1) as (seg & segs & ->).
Qed.

Lemma split_slash_no_slash s : no_slash s = true → split_slash s = [s].
Proof.
  induction s as [|ch s IH]; simpl; [done|].
  destruct (decide (ch = slash)); [done|]. intros H. by rewrite (IH H).
Qed.

Lemma join_slash_cons seg segs :
  segs ≠ [] → join_slash (seg :: segs) = seg +:+ String slash (join_slash segs).
Proof. by destruct segs. Qed.

Lemma split_slash_join segs :
  segs ≠ [] → Forall plain segs → split_slash (join_slash segs) = segs.
Proof.
  induction segs as [|seg segs IH]; intros Hne Hall; [done|].
  apply Forall_cons in Hall as [(_ & _ & _ & Hseg) Hall].
  destruct segs as [|seg' segs].
  - by apply split_slash_no_slash.
  - rewrite join_slash_cons by done.
    rewrite split_slash_app, split_slash_no_slash by done.
    by rewrite IH.
Qed.

Lemma clean_elem_plain rooted out seg : plain seg → clean_elem rooted out seg = seg :: out.
Proof.
  intros (H1 & H2 & H3 & _). unfold clean_elem.
  by rewrite !decide_False.
Qed.

Lemma clean_plain rooted segs : ∀ out,
  Forall plain segs → foldl (clean_elem rooted) out segs = rev segs ++ out.
Proof.
  induction segs as [|seg segs IH]; intros out Hall; [done|].
  apply Forall_cons in Hall as [Hseg Hall]. cbn [foldl].
  rewrite clean_elem_plain by done. rewrite IH by done.
  simpl. by rewrite <- app_assoc.
Qed.

Lemma path_Clean_rooted s :
  path_Clean (String slash s) =
  "/" +:+ join_slash (rev (foldl (clean_elem true) [] (split_slash s))).
Proof.
  unfold path_Clean. rewrite bool_decide_eq_true_2 by done.
  cbn [split_slash]. by destruct (decide (slash = slash)).
Qed.

Lemma path_Join_plain name mp segs :
  plain name → segs ≠ [] → Forall plain segs →
  mp = join_slash segs ∨ mp = "/" +:+ join_slash segs →
  path_Join ["/integrations"; name; mp] = "/integrations/" +:+ name +:+ "/" +:+ join_slash segs.
Proof.
  intros Hname Hne Hall Hmp.
  assert (Hmp_ne : mp ≠ "").
  { destruct segs as [|seg segs]; [done|].
    apply Forall_cons in Hall as [(Hseg & _) _].
    destruct Hmp as [->| ->]; [|done].
    destruct seg; [done|]. by destruct segs. }
  assert (Hsplit : foldl (clean_elem true) [name; "integrations"] (split_slash mp)
                   = rev segs ++ [name; "integrations"]).
  { destruct Hmp as [->| ->].
    - rewrite split_slash_join by done. by apply clean_plain.
    - change ("/" +:+ join_slash segs) with ("" +:+ String slash (join_slash segs)).
      rewrite split_slash_app, split_slash_join by done. simpl. by apply clean_plain. }
  unfold path_Join.
  rewrite filter_cons_True by done.
  rewrite filter_cons_True by apply Hname.
  rewrite filter_cons_True by done.
  rewrite filter_nil.
  rewrite !join_slash_cons by done. cbn [join_slash].
  change ("/integrations" +:+ String slash (name +:+ String slash mp))
    with (String slash ("integrations" +:+ String slash (name +:+ String slash mp))).
  rewrite path_Clean_rooted, !split_slash_app.
  rewrite (split_slash_no_slash name) by apply Hname.
  change (split_slash "integrations") with ["integrations"].
  cbn [app foldl].
  change (clean_elem true [] "integrations") with ["integrations"].
  rewrite clean_elem_plain by done.
  rewrite Hsplit. rewrite rev_app_distr, rev_involutive. simpl rev. cbn [app].
  rewrite !join_slash_cons by done.
  done.
Qed.

(** C7 (amended). The generated instance configuration is named by the
    integration's key. For every scrape target the integration declares, in
    order, the generated scrape configuration has the job name
    [integrations/] followed by the declared job name, and the metrics path
    [path.Join("/integrations", name, declared path)]; when the
    integration's name is a plain path element and the declared path is made
    of plain elements, with or without a leading slash, that path is
    [/integrations/<name>/<declared elements>]. *)
Theorem instanceConfigForIntegration_targets hostname icfg (i : Integration) cfg :
  let instanceCfg := instanceConfigForIntegration hostname icfg i cfg in
  inst_Name instanceCfg = integrationKey (Name icfg)
  ∧ length (inst_ScrapeConfigs instanceCfg) = length (ScrapeConfigs i)
  ∧ (∀ j isc, ScrapeConfigs i !! j = Some isc →
       ∃ sc, inst_ScrapeConfigs instanceCfg !! j = Some sc
         ∧ sc_JobName sc = "integrations/" +:+ JobName isc
         ∧ sc_MetricsPath sc = path_Join ["/integrations"; Name icfg; MetricsPath isc]
         ∧ (∀ segs, plain (Name icfg) → segs ≠ [] → Forall plain segs →
              MetricsPath isc = join_slash segs
              ∨ MetricsPath isc = "/" +:+ join_slash segs →
              sc_MetricsPath sc
              = "/integrations/" +:+ Name icfg +:+ "/" +:+ join_slash segs)).
Proof.
  intros instanceCfg. unfold instanceCfg, instanceConfigForIntegration.
  cbn [inst_Name inst_ScrapeConfigs].
  split; [done|]. split; [apply length_map|].
  intros j isc Hj.
  eexists. split.
  - change (map ?f ?l) with (f <$> l). rewrite list_lookup_fmap, Hj. done.
  - cbn [sc_JobName sc_MetricsPath]. split; [done|]. split; [done|].
    intros segs Hname Hne Hall Hmp. by apply path_Join_plain.
Qed.

(** * Further properties of the manager *)

(** ** [ApplyDefaults] *)

Lemma ApplyDefaults_loop_exists c wal ics :
  ApplyDefaults_loop c wal ics =
  if existsb (λ ic, Enabled (CommonConfig ic) && scraped c ic && bool_decide (wal = "")) ics
  then Some (errorString "no wal_directory configured") else None.
Proof.
  induction ics as [|ic ics IH]; [done|]. cbn [ApplyDefaults_loop existsb].
  unfold scraped at 1. destruct (Enabled (CommonConfig ic)); cbn [negb andb orb]; [|done].
  destruct (_ && bool_decide (wal = "")); [done|]. by rewrite IH.
Qed.

(** X1. [ApplyDefaults] returns the error "no wal_directory configured"
    exactly when the WAL directory is empty and some integration is enabled
    and going to be scraped (its own setting if it has one, the manager's
    otherwise); it returns no other error. Integrations that are not
    enabled never matter. *)
Theorem ApplyDefaults_needs_wal (c : ManagerConfig) (WALDir : string) :
  (ApplyDefaults c WALDir = Some (errorString "no wal_directory configured")
   ↔ WALDir = ""
     ∧ ∃ ic, ic ∈ Integrations c ∧ Enabled (CommonConfig ic) = true ∧ scraped c ic = true)
  ∧ (ApplyDefaults c WALDir = None
     ↔ WALDir ≠ ""
       ∨ ∀ ic, ic ∈ Integrations c → Enabled (CommonConfig ic) = true → scraped c ic = false).
Proof.
  unfold ApplyDefaults. rewrite ApplyDefaults_loop_exists.
  destruct (existsb _ (Integrations c)) eqn:Hex.
  - apply existsb_exists in Hex as (ic & Hin & Hic).
    apply andb_true_iff in Hic as [Hic Hwal]. apply andb_true_iff in Hic as [Hen Hsc].
    apply bool_decide_eq_true in Hwal. apply list_elem_of_In in Hin.
    split; split; try done.
    + intros _. split; [done|]. by exists ic.
    + intros [Hne|Hall]; [done|]. specialize (Hall ic Hin Hen). congruence.
  - split; split; try done.
    + intros (Hwal & ic & Hin & Hen & Hsc). exfalso.
      apply not_true_iff_false in Hex. apply Hex. apply existsb_exists.
      exists ic. split; [by apply list_elem_of_In|].
      rewrite Hen, Hsc. by apply bool_decide_eq_true.
    + intros _. destruct (decide (WALDir = "")) as [Hwal|Hwal]; [right|by left].
      intros ic Hin Hen. destruct (scraped c ic) eqn:Hsc; [|done]. exfalso.
      apply not_true_iff_false in Hex. apply Hex. apply existsb_exists.
      exists ic. split; [by apply list_elem_of_In|].
      rewrite Hen, Hsc. by apply bool_decide_eq_true.
Qed.

(** ** The key of an integration *)


(** ** The projection onto a scrape configuration *)

(** X3. In every scrape configuration generated for an integration, the
    relabel rules are the manager's default rules followed by the
    integration's own, in their order: when [ReplaceInstanceLabel] is set
    the first rule replaces the [instance] label by [hostname:port] from
    the address label and the integration's rules follow; otherwise the
    rules are the integration's alone. The metric relabel rules are the
    integration's. *)
Theorem instanceConfigForIntegration_relabel hostname icfg (i : Integration) cfg :
  Forall (λ sc,
    sc_RelabelConfigs sc =
      (if ReplaceInstanceLabel cfg
       then {| SourceLabels := ["__address__"]; Action := "replace"; Separator := ";";
               Regex := "(.*)";
               Replacement := hostname +:+ ":" +:+ pretty (ListenPort cfg);
               TargetLabel := "instance" |} :: RelabelConfigs (CommonConfig icfg)
       else RelabelConfigs (CommonConfig icfg))
    ∧ sc_MetricRelabelConfigs sc = MetricRelabelConfigs (CommonConfig icfg))
    (inst_ScrapeConfigs (instanceConfigForIntegration hostname icfg i cfg)).
Proof.
  unfold instanceConfigForIntegration. cbn [inst_ScrapeConfigs].
  apply Forall_forall. intros sc Hsc. apply list_elem_of_In in Hsc.
  apply in_map_iff in Hsc as (isc & <- & _). cbn.
  unfold DefaultRelabelConfigs. by destruct (ReplaceInstanceLabel cfg).
Qed.

(** X4. Every generated scrape configuration uses the scheme [https]
    exactly when the agent's server uses TLS, and only then carries the
    server's TLS settings as client settings; otherwise the scheme is
    [http] and the client TLS settings are empty, whatever [TLSConfig]
    holds. Labels are never honoured and timestamps always are. *)
Theorem instanceConfigForIntegration_scheme hostname icfg (i : Integration) cfg :
  Forall (λ sc,
    (sc_Scheme sc = "https" ↔ ServerUsingTLS cfg = true)
    ∧ (sc_Scheme sc = "http" ↔ ServerUsingTLS cfg = false)
    ∧ sc_HTTPClientTLSConfig sc
      = (if ServerUsingTLS cfg then TLSConfig cfg else zero_TLSConfig)
    ∧ sc_HonorLabels sc = false ∧ sc_HonorTimestamps sc = true)
    (inst_ScrapeConfigs (instanceConfigForIntegration hostname icfg i cfg)).
Proof.
  unfold instanceConfigForIntegration. cbn [inst_ScrapeConfigs].
  apply Forall_forall. intros sc Hsc. apply list_elem_of_In in Hsc.
  apply in_map_iff in Hsc as (isc & <- & _). cbn.
  by destruct (ServerUsingTLS cfg).
Qed.

(** X5. The service discovery of the generated scrape configurations is
    one static group with one target, the agent's own address: the listen
    host, or [127.0.0.1] when it is empty, and the listen port. A label of
    the group is the manager's label of that name when there is one (so a
    configured [agent_hostname] label wins); failing that,
    [agent_hostname] is the hostname when [UseHostnameLabel] is set; there
    is no other label. *)
Theorem scrapeServiceDiscovery_target hostname cfg :
  ∃ sd, scrapeServiceDiscovery hostname cfg = [sd]
    ∧ Targets sd =
        [ {[ "__address__" :=
               (if decide (ListenHost cfg = "") then "127.0.0.1" else ListenHost cfg)
               +:+ ":" +:+ pretty (ListenPort cfg) ]} ]
    ∧ ∀ name, TargetLabels sd !! name =
        match Labels cfg !! name with
        | Some v => Some v
        | None =>
            if UseHostnameLabel cfg && bool_decide (name = "agent_hostname")
            then Some hostname else None
        end.
Proof.
  eexists. split; [done|]. split; [done|]. intros name. cbn [TargetLabels].
  destruct (Labels cfg !! name) as [v|] eqn:Hl.
  - by apply lookup_union_Some_l.
  - rewrite lookup_union_r by done. destruct (UseHostnameLabel cfg); cbn [andb].
    + destruct (decide (name = "agent_hostname")) as [->|Hne].
      * by rewrite lookup_singleton_eq.
      * rewrite lookup_singleton_ne by done. by rewrite bool_decide_eq_false_2.
    + by rewrite lookup_empty.
Qed.

(** ** Calls that do nothing *)

(** X6. Applying a configuration a second time does nothing, provided the
    comparison finds the configuration equal to itself: the manager is
    left as the first call returned it and nothing is started, stopped or
    sent to the instance manager; on a manager that is not stopped the
    second call returns nil. *)
Theorem ApplyConfig_again m c :
  CompareYAML_ManagerConfig c c = true →
  let m' := (ApplyConfig m c).1.1 in
  (ApplyConfig m' c).1 = (m', [])
  ∧ (ctx_done m = false → (ApplyConfig m' c).2 = None).
Proof.
  intros Hrefl m'. unfold m'. clear m'.
  destruct (CompareYAML_ManagerConfig (cfg m) c) eqn:Hcmp;
    [|destruct (ctx_done m) eqn:Hdone].
  - assert (H : ApplyConfig m c = (m, [], None)) by (unfold ApplyConfig; by rewrite Hcmp).
    rewrite H. cbn [fst]. by rewrite H.
  - assert (H : ApplyConfig m c = (m, [], Some (errorString "Manager already stopped")))
      by (unfold ApplyConfig; by rewrite Hcmp, Hdone).
    rewrite H. cbn [fst]. rewrite H. split; [done|intros Hd; discriminate Hd].
  - rewrite (ApplyConfig_reconciles m c Hcmp Hdone). cbn [fst].
    unfold ApplyConfig. cbn [cfg]. by rewrite Hrefl.
Qed.

(** X7. Once the manager is stopped it stays as it is: [Stop] again
    changes nothing, and any sequence of [ApplyConfig] calls after [Stop]
    leaves the registry, the stored configuration and the allocator
    untouched and produces no event. *)
Theorem apply_all_after_Stop m (cs : list ManagerConfig) :
  Stop (Stop m) = Stop m
  ∧ apply_all (Stop m) cs = (Stop m, []).
Proof.
  split; [done|].
  induction cs as [|c cs IH]; [done|]. cbn [apply_all].
  unfold ApplyConfig at 1. cbn [ctx_done cfg Stop].
  destruct (CompareYAML_ManagerConfig (cfg m) c); by rewrite IH.
Qed.

(** ** What the trace of a call can hold *)

Lemma trace_invariant_emit (P : Event → Prop) st evs :
  (∀ ev, ev ∈ st_trace st → P ev) → (∀ ev, ev ∈ evs → P ev) →
  ∀ ev, ev ∈ st_trace st ++ evs → P ev.
Proof. intros H1 H2 ev Hev. apply elem_of_app in Hev as [?|?]; auto. Qed.

(** Every event of the first two loops satisfies [P] when the events these
    loops can emit do. *)
Lemma loop12_events (P : Event → Prop) c st :
  (∀ a, P (EvStop a)) → (∀ n ok, P (EvNewIntegration n ok)) →
  (∀ k a, P (EvGo k a)) → (∀ k, P (EvDeleteConfig k)) →
  (∀ msg n, P (EvLogError msg n)) →
  (∀ ev, ev ∈ st_trace st → P ev) →
  let st1 := foldl applyIntegration st (Integrations c) in
  ∀ ev, ev ∈ st_trace (foldl (sweepIntegration c) st1 (map_to_list (st_integrations st1))) → P ev.
Proof.
  intros Hstop Hnew Hgo Hdel Hlog Hst st1.
  apply (foldl_invariant (λ st', ∀ ev, ev ∈ st_trace st' → P ev)).
  - apply (foldl_invariant (λ st', ∀ ev, ev ∈ st_trace st' → P ev)); [done|].
    intros st' ic _ Hst'. apply_cases st' ic; try done;
      intros ev Hev; set_unfold; intuition (subst; auto).
  - intros st' kp _ Hst'. unfold sweepIntegration.
    destruct (foundConfig c kp.1); [done|]. simpl.
    intros ev Hev. set_unfold. intuition (subst; auto).
Qed.

(** X8. Only validated configurations reach the instance manager: every
    configuration [ApplyConfig] passes to [im.ApplyConfig] is what the
    validator made of the scrape configuration generated for a process
    that is registered when the call returns and is to be scraped, the
    validator having accepted it; and the event records whether the
    instance manager accepted it. *)
Theorem ApplyConfig_applies_validated m c (applied : instance_Config) (ok : bool) :
  EvApplyConfig applied ok ∈ (ApplyConfig m c).1.2 →
  ∃ k p, integrations (ApplyConfig m c).1.1 !! k = Some p
    ∧ shouldCollect c p = true
    ∧ validator m (instanceConfigForIntegration (hostname m) (proc_cfg p) (proc_i p) c)
      = (applied, None)
    ∧ (ok = true ↔ im_ApplyConfig (im m) applied = None).
Proof.
  unfold ApplyConfig.
  destruct (CompareYAML_ManagerConfig (cfg m) c); [by intros ?%elem_of_nil|].
  destruct (ctx_done m); [by intros ?%elem_of_nil|].
  cbn [fst snd integrations]. unfold reconcile.
  set (st1 := foldl applyIntegration (initial_applyState m) (Integrations c)).
  set (st2 := foldl (sweepIntegration c) st1 (map_to_list (st_integrations st1))).
  rewrite (proj1 (loop3_registry m c (map_to_list (st_integrations st2)) st2)).
  set (Q := λ ev, ∀ applied ok, ev = EvApplyConfig applied ok →
     ∃ k p, st_integrations st2 !! k = Some p
       ∧ shouldCollect c p = true
       ∧ validator m (instanceConfigForIntegration (hostname m) (proc_cfg p) (proc_i p) c)
         = (applied, None)
       ∧ (ok = true ↔ im_ApplyConfig (im m) applied = None)).
  assert (Hall : ∀ ev, ev ∈ st_trace (foldl (reapplyIntegration m c) st2
                                        (map_to_list (st_integrations st2))) → Q ev).
  { apply (foldl_invariant (λ st', ∀ ev, ev ∈ st_trace st' → Q ev)).
    - apply (loop12_events Q c (initial_applyState m)); try done.
      intros ev Hev. by apply elem_of_nil in Hev.
    - intros st' [k p] Hkp Hst'. apply elem_of_map_to_list in Hkp.
      unfold reapplyIntegration.
      destruct (shouldCollect c p) eqn:Hsc.
      + destruct (validator m _) as [validated [e|]] eqn:Hv;
          [|destruct (im_ApplyConfig (im m) validated) eqn:Him]; simpl;
          apply trace_invariant_emit; try done;
          intros ev Hev; set_unfold; intros applied' ok' Heq;
          destruct Hev as [->|[->|Hev]]; try done;
          try (destruct Hev as [->|Hev]; try done);
          injection Heq as <- <-; exists k, p; repeat split; try done; congruence.
      + simpl. apply trace_invariant_emit; [done|].
        intros ev Hev. set_unfold. by destruct Hev as [->|[]]. }
  intros Hin. by apply (Hall _ Hin).
Qed.

Lemma cleaned_emit (tr evs : list Event) :
  (∀ n, EvNewIntegration n false ∈ tr → EvDeleteConfig (integrationKey n) ∈ tr) →
  (∀ n, EvNewIntegration n false ∈ evs → EvDeleteConfig (integrationKey n) ∈ evs) →
  ∀ n, EvNewIntegration n false ∈ tr ++ evs → EvDeleteConfig (integrationKey n) ∈ tr ++ evs.
Proof.
  intros H1 H2 n Hn. apply elem_of_app. apply elem_of_app in Hn as [Hn|Hn]; auto.
Qed.

Lemma reconcile_cleaned m c st :
  (∀ n, EvNewIntegration n false ∈ st_trace st →
        EvDeleteConfig (integrationKey n) ∈ st_trace st) →
  ∀ n, EvNewIntegration n false ∈ st_trace (reconcile m c st) →
       EvDeleteConfig (integrationKey n) ∈ st_trace (reconcile m c st).
Proof.
  intros Hst. unfold reconcile.
  set (T := λ st' : applyState, ∀ n, EvNewIntegration n false ∈ st_trace st' →
                  EvDeleteConfig (integrationKey n) ∈ st_trace st').
  apply (foldl_invariant T).
  - apply (foldl_invariant T).
    + apply (foldl_invariant T); [done|].
      intros st' ic _ Hst'. unfold T. apply_cases st' ic; try done;
        rewrite <- ?app_assoc; apply cleaned_emit; try done;
        intros n Hn; set_unfold; intuition congruence.
    + intros st' kp _ Hst'. unfold T, sweepIntegration.
      destruct (foundConfig c kp.1); [done|]. simpl.
      apply cleaned_emit; [done|]. intros n Hn. set_unfold. intuition congruence.
  - intros st' [k p] _ Hst'. unfold T, reapplyIntegration.
    destruct (shouldCollect c p).
    + destruct (validator m _) as [validated [e|]];
        [|destruct (im_ApplyConfig (im m) validated)]; simpl;
        (apply cleaned_emit; [done|]); intros n Hn; set_unfold; intuition congruence.
    + simpl. apply cleaned_emit; [done|]. intros n Hn. set_unfold. intuition congruence.
Qed.

(** X9. When an integration cannot be built during [ApplyConfig], the
    call asks the instance manager to delete the scrape configuration of
    its key (a process that ran under the key has been stopped and is no
    longer there to be swept), and the call returns the error "not all
    integrations were correctly updated". *)
Theorem ApplyConfig_failed_integration_cleaned m c (name : string) :
  EvNewIntegration name false ∈ (ApplyConfig m c).1.2 →
  EvDeleteConfig (integrationKey name) ∈ (ApplyConfig m c).1.2
  ∧ (ApplyConfig m c).2 = Some (errorString "not all integrations were correctly updated").
Proof.
  unfold ApplyConfig.
  destruct (CompareYAML_ManagerConfig (cfg m) c); [by intros ?%elem_of_nil|].
  destruct (ctx_done m); [by intros ?%elem_of_nil|].
  cbn [fst snd]. intros Hin. split.
  - apply reconcile_cleaned; [|done]. intros n Hn. by apply elem_of_nil in Hn.
  - rewrite (reconcile_flag m c (initial_applyState m)) by done.
    assert (Hex : existsb is_failure (st_trace (reconcile m c (initial_applyState m))) = true).
    { apply existsb_exists. exists (EvNewIntegration name false).
      split; [by apply list_elem_of_In|done]. }
    by rewrite Hex.
Qed.

(** ** The registry and the live processes *)

Lemma live_cover_stop live ints next k p :
  registry_ok ints next → live_cover live ints → ints !! k = Some p →
  live_cover (live_step live (EvStop (proc_addr p))) (delete k ints).
Proof.
  intros [_ Hinj] Hc Hk k' q Hq. apply lookup_delete_Some in Hq as [Hne Hq].
  cbn [live_step]. apply list_elem_of_filter. split; [|by apply Hc].
  cbn. intros Ha. apply Hne. symmetry. by apply (Hinj k' k q p).
Qed.

Lemma live_cover_go live ints k q :
  live_cover live ints →
  live_cover (live_step live (EvGo k (proc_addr q))) (<[k := q]> ints).
Proof.
  intros Hc k' q' Hq'. cbn [live_step].
  apply lookup_insert_Some in Hq' as [[<- <-]|[Hne Hq']]; [left|right; by apply Hc].
Qed.

Lemma applyIntegration_cover live0 st ic :
  registry_ok (st_integrations st) (st_next st) →
  live_cover (live_after live0 (st_trace st)) (st_integrations st) →
  live_cover (live_after live0 (st_trace (applyIntegration st ic)))
             (st_integrations (applyIntegration st ic)).
Proof.
  intros Hok Hc. unfold live_after in *.
  apply_cases st ic; rewrite ?foldl_app; cbn [foldl live_step]; try done.
  - apply (live_cover_go _ _ _ {| proc_addr := st_next st; proc_cfg := ic; proc_i := i |}).
    by apply (live_cover_stop _ _ (st_next st)).
  - by apply (live_cover_stop _ _ (st_next st)).
  - by apply (live_cover_go _ _ _ {| proc_addr := st_next st; proc_cfg := ic; proc_i := i |}).
Qed.

Lemma loop1_cover live0 l st :
  registry_ok (st_integrations st) (st_next st) →
  live_cover (live_after live0 (st_trace st)) (st_integrations st) →
  let st1 := foldl applyIntegration st l in
  registry_ok (st_integrations st1) (st_next st1)
  ∧ live_cover (live_after live0 (st_trace st1)) (st_integrations st1).
Proof.
  intros Hok Hc.
  apply (foldl_invariant (λ st', registry_ok (st_integrations st') (st_next st')
            ∧ live_cover (live_after live0 (st_trace st')) (st_integrations st'))); [done|].
  intros st' ic _ [Hok' Hc']. split; [by apply applyIntegration_ok|].
  by apply applyIntegration_cover.
Qed.

Lemma sweep_cover live0 c (l : list (string * integrationProcess)) : ∀ st,
  NoDup l.*1 →
  (∀ k p, (k, p) ∈ l → st_integrations st !! k = Some p) →
  registry_ok (st_integrations st) (st_next st) →
  live_cover (live_after live0 (st_trace st)) (st_integrations st) →
  live_cover (live_after live0 (st_trace (foldl (sweepIntegration c) st l)))
             (st_integrations (foldl (sweepIntegration c) st l)).
Proof.
  induction l as [|[k p] l IH]; intros st Hnd Hl Hok Hc; [done|].
  cbn [foldl]. rewrite fmap_cons in Hnd. apply NoDup_cons in Hnd as [Hnotin Hnd].
  unfold sweepIntegration at 2 4. cbn [fst snd].
  destruct (foundConfig c k).
  - apply IH; try done. intros k' p' Hin. apply Hl. by right.
  - apply IH; try done; cbn.
    + intros k' p' Hin. rewrite lookup_delete_ne; [apply Hl; by right|].
      intros <-. apply Hnotin. apply list_elem_of_fmap. by exists (k, p').
    + by apply registry_ok_delete.
    + unfold live_after in *. rewrite foldl_app. cbn [foldl live_step].
      apply (live_cover_stop _ _ (st_next st)); [done|done|]. apply Hl. left.
Qed.

Lemma loop3_live live0 m c (l : list (string * integrationProcess)) st :
  live_after live0 (st_trace (foldl (reapplyIntegration m c) st l))
  = live_after live0 (st_trace st).
Proof.
  apply (foldl_invariant (λ st', live_after live0 (st_trace st')
                                 = live_after live0 (st_trace st))); [done|].
  intros st' [k p] _ <-. unfold reapplyIntegration, live_after.
  destruct (shouldCollect c p).
  - destruct (validator m _) as [validated [e|]];
      [|destruct (im_ApplyConfig (im m) validated)]; simpl; by rewrite foldl_app.
  - simpl. by rewrite foldl_app.
Qed.

Lemma registered_cover ints : live_cover (registered ints) ints.
Proof.
  intros k q Hq. apply list_elem_of_fmap. exists (k, q). split; [done|].
  by apply elem_of_map_to_list.
Qed.

(** X10. On a manager whose registry is well formed, a call of
    [ApplyConfig] leaves exactly the registered processes live: replaying
    the stops and starts of the call on the processes registered before
    gives the processes registered after. No process is left running
    without being registered, and no registered process has been stopped. *)
Theorem ApplyConfig_live_is_registered m c (k : string) (a : nat) :
  Manager_ok m →
  (k, a) ∈ live_after (registered (integrations m)) (ApplyConfig m c).1.2
  ↔ ∃ q, integrations (ApplyConfig m c).1.1 !! k = Some q ∧ proc_addr q = a.
Proof.
  intros Hok.
  assert (Hinit : ∀ ints, (k, a) ∈ registered ints ↔ ∃ q, ints !! k = Some q ∧ proc_addr q = a).
  { intros ints. split.
    - intros Hin. by apply (proj1 (good_init ints)).
    - intros (q & Hq & <-). by apply registered_cover. }
  unfold ApplyConfig.
  destruct (CompareYAML_ManagerConfig (cfg m) c); [apply Hinit|].
  destruct (ctx_done m); [apply Hinit|].
  cbn [fst snd integrations]. split.
  - intros Hin. by apply (proj1 (reconcile_good m c)).
  - intros (q & Hq & <-). revert Hq. unfold reconcile.
    set (st1 := foldl applyIntegration (initial_applyState m) (Integrations c)).
    set (st2 := foldl (sweepIntegration c) st1 (map_to_list (st_integrations st1))).
    rewrite (proj1 (loop3_registry m c _ st2)), loop3_live.
    destruct (loop1_cover (registered (integrations m)) (Integrations c) (initial_applyState m))
      as [Hok1 Hc1]; [done|apply registered_cover|].
    intros Hq. apply (sweep_cover (registered (integrations m)) c _ st1); try done.
    + apply NoDup_fst_map_to_list.
    + intros k' p' Hin. by apply elem_of_map_to_list.
Qed.

(** ** Where the registered processes come from *)

Lemma applyIntegration_reflects m done st ic :
  reflects m done (st_integrations st) →
  reflects m (done ++ [ic]) (st_integrations (applyIntegration st ic)).
Proof.
  intros Hr.
  assert (Hold : ∀ k p, st_integrations st !! k = Some p →
            (integrationKey (Name ic) = k →
             ∃ p0, st_integrations st !! integrationKey (Name ic) = Some p0
                   ∧ p0 = p ∧ CompareYAML (proc_cfg p0) ic = true) →
            (proc_cfg p ∈ done ++ [ic] ∧ integrationKey (Name (proc_cfg p)) = k)
            ∨ (integrations m !! k = Some p
               ∧ ∀ ic', ic' ∈ done ++ [ic] → integrationKey (Name ic') = k →
                   CompareYAML (proc_cfg p) ic' = true)).
  { intros k p Hk Hsame. destruct (Hr k p Hk) as [[Hin Hkey]|[Horig Hall]].
    - left. split; [|done]. apply elem_of_app. by left.
    - right. split; [done|]. intros ic' Hic' Hkey.
      apply elem_of_app in Hic' as [Hic'|Hic']; [by apply Hall|].
      apply list_elem_of_singleton in Hic' as ->.
      destruct (Hsame Hkey) as (p0 & _ & -> & Hcmp). done. }
  assert (Hnew : ∀ i n, (ic ∈ done ++ [ic]
            ∧ integrationKey (Name (proc_cfg {| proc_addr := n; proc_cfg := ic; proc_i := i |}))
              = integrationKey (Name ic))).
  { intros i n. split; [|done]. apply elem_of_app. right. left. }
  apply_cases st ic; intros k q Hq.
  - apply Hold; [done|]. intros Hkey. exists p. rewrite <- Hkey in Hq.
    split; [done|]. split; [congruence|done].
  - apply lookup_insert_Some in Hq as [[<- <-]|[Hne Hq]]; [left; apply Hnew|].
    apply lookup_delete_Some in Hq as [_ Hq]. by apply Hold.
  - apply lookup_delete_Some in Hq as [Hne Hq]. by apply Hold.
  - apply lookup_insert_Some in Hq as [[<- <-]|[Hne Hq]]; [left; apply Hnew|].
    by apply Hold.
  - apply Hold; [done|]. intros Hkey. rewrite <- Hkey in Hq. congruence.
Qed.

Lemma loop1_reflects m l : ∀ done st,
  reflects m done (st_integrations st) →
  reflects m (done ++ l) (st_integrations (foldl applyIntegration st l)).
Proof.
  induction l as [|ic l IH]; intros done st Hr; [by rewrite app_nil_r|].
  cbn [foldl]. replace (done ++ ic :: l) with ((done ++ [ic]) ++ l) by by rewrite <- app_assoc.
  apply IH. by apply applyIntegration_reflects.
Qed.

Lemma reconcile_reflects m c :
  reflects m (Integrations c) (st_integrations (reconcile m c (initial_applyState m))).
Proof.
  intros k p. rewrite reconcile_registry. destruct (foundConfig c k); [|done].
  apply (loop1_reflects m (Integrations c) [] (initial_applyState m)).
  intros k' p' Hk'. right. split; [done|]. intros ic Hic. by apply elem_of_nil in Hic.
Qed.

(** X11. After a call of [ApplyConfig] that gets past its guards, every
    registered process either was built during the call from an entry of
    the new configuration, under the key of that entry, or is a process
    that was registered before under the same key, the new configuration
    has an entry with that key, and every such entry compares equal to the
    configuration the process was built from. *)
Theorem ApplyConfig_registry_reflects_config m c (k : string) (p : integrationProcess) :
  CompareYAML_ManagerConfig (cfg m) c = false →
  ctx_done m = false →
  integrations (ApplyConfig m c).1.1 !! k = Some p →
  (proc_cfg p ∈ Integrations c ∧ integrationKey (Name (proc_cfg p)) = k)
  ∨ (integrations m !! k = Some p
     ∧ (∃ ic, ic ∈ Integrations c ∧ integrationKey (Name ic) = k)
     ∧ ∀ ic, ic ∈ Integrations c → integrationKey (Name ic) = k →
         CompareYAML (proc_cfg p) ic = true).
Proof.
  intros Hcmp Hdone. rewrite (ApplyConfig_reconciles m c Hcmp Hdone).
  cbn [fst integrations]. intros Hk.
  destruct (reconcile_reflects m c k p Hk) as [?|[Horig Hall]]; [by left|right].
  split; [done|]. split; [|done].
  rewrite reconcile_registry in Hk. destruct (foundConfig c k) eqn:Hf; [|done].
  by apply foundConfig_true.
Qed.

Lemma ApplyConfig_key_consistent m c :
  key_consistent (integrations m) →
  key_consistent (integrations (ApplyConfig m c).1.1).
Proof.
  intros Hkc. unfold ApplyConfig.
  destruct (CompareYAML_ManagerConfig (cfg m) c); [done|].
  destruct (ctx_done m); [done|]. cbn [fst integrations].
  intros k p Hk. destruct (reconcile_reflects m c k p Hk) as [[_ ?]|[Horig _]]; [done|].
  by apply Hkc.
Qed.

(** X12. Every manager a program can hold, from [NewManager] through any
    calls of [ApplyConfig] and [Stop], has a well-formed registry: no
    process is registered under two keys, the allocator is ahead of every
    registered process, and every process is registered under the key of
    the configuration it was built from. *)
Theorem reachable_well_formed m :
  reachable m → Manager_ok m ∧ key_consistent (integrations m).
Proof.
  induction 1 as [c im0 validate host m tr Hnew|m c _ [IH1 IH2]|m _ IH].
  - split; [by eapply NewManager_ok|].
    unfold NewManager in Hnew. destruct host as [h|e]; [|done].
    set (m0 := {| cfg := zero_ManagerConfig; hostname := h; ctx_done := false; im := im0;
                  validator := validate; integrations := ∅; next_addr := 0 |}) in Hnew.
    pose proof (ApplyConfig_key_consistent m0 c) as Hkc.
    destruct (ApplyConfig m0 c) as [[m1 tr1] [e|]]; [done|].
    injection Hnew as <- <-. apply Hkc. intros k p Hk. cbn in Hk.
    by rewrite lookup_empty in Hk.
  - split; [by apply ApplyConfig_ok|by apply ApplyConfig_key_consistent].
  - done.
Qed.

(** X13. [NewManager] fails with the error of [instance.Hostname()] when
    that fails, and with "failed applying config: not all integrations
    were correctly updated" when a sub-step of the first [ApplyConfig]
    fails. When it succeeds, the manager has the hostname, is not stopped,
    no sub-step failed, and every registered process was built from an
    entry of the configuration, under the key of that entry; the
    configuration is stored, unless it compares equal to the empty
    configuration: then nothing is started or stored. *)
Theorem NewManager_result c im0 validate host :
  match NewManager c im0 validate host with
  | Ok (m, tr) =>
      host = Ok (hostname m) ∧ ctx_done m = false ∧ im m = im0
      ∧ existsb is_failure tr = false
      ∧ (if CompareYAML_ManagerConfig zero_ManagerConfig c
         then cfg m = zero_ManagerConfig ∧ integrations m = ∅ ∧ tr = []
         else cfg m = c)
      ∧ (∀ k p, integrations m !! k = Some p →
           proc_cfg p ∈ Integrations c ∧ integrationKey (Name (proc_cfg p)) = k)
  | Err e =>
      host = Err e
      ∨ ((∃ h, host = Ok h)
         ∧ CompareYAML_ManagerConfig zero_ManagerConfig c = false
         ∧ e = errorString "failed applying config: not all integrations were correctly updated")
  end.
Proof.
  unfold NewManager. destruct host as [h|e]; [|by left].
  set (m0 := {| cfg := zero_ManagerConfig; hostname := h; ctx_done := false; im := im0;
                validator := validate; integrations := ∅; next_addr := 0 |}).
  pose proof (reconcile_reflects m0 c) as Hrefl.
  pose proof (reconcile_flag m0 c (initial_applyState m0) eq_refl) as Hflag.
  unfold ApplyConfig. cbn [cfg ctx_done m0].
  destruct (CompareYAML_ManagerConfig zero_ManagerConfig c) eqn:Hcmp.
  - do 5 (split; [done|]).
    intros k p Hk. cbn in Hk. by rewrite lookup_empty in Hk.
  - fold m0. unfold flag_ok in Hflag.
    destruct (st_failed (reconcile m0 c (initial_applyState m0))) eqn:Hf.
    + right. split; [by exists h|]. done.
    + do 5 (split; [done|]).
      intros k p Hk. cbn in Hk.
      destruct (Hrefl k p Hk) as [[? ?]|[Horig _]]; [done|].
      cbn in Horig. by rewrite lookup_empty in Horig.
Qed.

(** ** Addresses *)

Lemma applyIntegration_fresh n0 st ic :
  (n0 ≤ st_next st)%nat →
  (∀ k a, EvGo k a ∈ st_trace st → (n0 ≤ a < st_next st)%nat) →
  ∀ k a, EvGo k a ∈ st_trace (applyIntegration st ic) →
    (n0 ≤ a < st_next (applyIntegration st ic))%nat.
Proof.
  intros Hle Hst. apply_cases st ic; intros k a Hin; try (by apply (Hst k)).
  - apply elem_of_app in Hin as [Hin|Hin].
    + apply elem_of_app in Hin as [Hin|Hin]; [|set_unfold; intuition congruence].
      specialize (Hst _ _ Hin). lia.
    + set_unfold. destruct Hin as [Hin|[Hin|[]]]; [done|]. injection Hin as -> ->. lia.
  - apply elem_of_app in Hin as [Hin|Hin]; [|set_unfold; intuition congruence].
    apply elem_of_app in Hin as [Hin|Hin]; [|set_unfold; intuition congruence].
    by apply (Hst k).
  - apply elem_of_app in Hin as [Hin|Hin]; [specialize (Hst _ _ Hin); lia|].
    set_unfold. destruct Hin as [Hin|[Hin|[]]]; [done|]. injection Hin as -> ->. lia.
  - apply elem_of_app in Hin as [Hin|Hin]; [|set_unfold; intuition congruence].
    by apply (Hst k).
Qed.

(** X14. A call of [ApplyConfig] never starts a process at an address that
    was handed out before: every process it starts has an address from the
    allocator of the manager on, below the allocator it leaves, and the
    allocator never moves back. A process started by the call is therefore
    never mistaken for one that ran before it. *)
Theorem ApplyConfig_starts_fresh m c (k : string) (a : nat) :
  EvGo k a ∈ (ApplyConfig m c).1.2 →
  (next_addr m ≤ a < next_addr (ApplyConfig m c).1.1)%nat.
Proof.
  unfold ApplyConfig.
  destruct (CompareYAML_ManagerConfig (cfg m) c); [by intros ?%elem_of_nil|].
  destruct (ctx_done m); [by intros ?%elem_of_nil|].
  cbn [fst snd next_addr]. rewrite reconcile_next.
  set (st1 := foldl applyIntegration (initial_applyState m) (Integrations c)).
  assert (H1 : (next_addr m ≤ st_next st1)%nat
               ∧ ∀ k a, EvGo k a ∈ st_trace st1 → (next_addr m ≤ a < st_next st1)%nat).
  { apply (foldl_invariant (λ st', (next_addr m ≤ st_next st')%nat
        ∧ ∀ k a, EvGo k a ∈ st_trace st' → (next_addr m ≤ a < st_next st')%nat)).
    - split; [done|]. intros k' a' Hin. by apply elem_of_nil in Hin.
    - intros st' ic _ [Hle Hst']. split.
      + pose proof (applyIntegration_next st' ic). lia.
      + by apply applyIntegration_fresh. }
  destruct H1 as [_ H1]. intros Hin. apply (H1 k).
  revert Hin. unfold reconcile. fold st1.
  set (P := λ ev, ev = EvGo k a → False).
  assert (Hall : ∀ ev, ev ∈ st_trace (foldl (reapplyIntegration m c)
              (foldl (sweepIntegration c) st1 (map_to_list (st_integrations st1)))
              (map_to_list (st_integrations
                 (foldl (sweepIntegration c) st1 (map_to_list (st_integrations st1)))))) →
            ev ∈ st_trace st1 ∨ P ev).
  { apply (foldl_invariant (λ st', ∀ ev, ev ∈ st_trace st' → ev ∈ st_trace st1 ∨ P ev)).
    - apply (foldl_invariant (λ st', ∀ ev, ev ∈ st_trace st' → ev ∈ st_trace st1 ∨ P ev));
        [by left|].
      intros st' kp _ Hst'. unfold sweepIntegration.
      destruct (foundConfig c kp.1); [done|]. simpl. intros ev Hev.
      apply elem_of_app in Hev as [Hev|Hev]; [by apply Hst'|].
      right. unfold P. set_unfold. intuition congruence.
    - intros st' [k' p'] _ Hst'. unfold reapplyIntegration.
      destruct (shouldCollect c p').
      + destruct (validator m _) as [validated [e|]];
          [|destruct (im_ApplyConfig (im m) validated)]; simpl; intros ev Hev;
          (apply elem_of_app in Hev as [Hev|Hev]; [by apply Hst'|]);
          right; unfold P; set_unfold; intuition congruence.
      + simpl. intros ev Hev. apply elem_of_app in Hev as [Hev|Hev]; [by apply Hst'|].
        right. unfold P. set_unfold. intuition congruence. }
  intros Hin. destruct (Hall _ Hin) as [?|HP]; [done|]. exfalso. by apply HP.
Qed.

End Manager.


(** * The run loop: restart, cancellation, panics *)

Lemma run_loop_failing wait p msgs rest :
  run_loop wait p (map failing msgs ++ rest) =
  (flat_map (λ msg, RRun :: RWait (Name (proc_cfg p)) (errorString msg)
                      :: wait (proc_cfg p) (errorString msg)) msgs
     ++ (run_loop wait p rest).1,
   (run_loop wait p rest).2).
Proof.
  induction msgs as [|msg msgs IH]; simpl.
  - by destruct (run_loop wait p rest).
  - rewrite IH. simpl. by rewrite <- app_assoc.
Qed.

Lemma run_loop_backoff m p msgs rest :
  run_loop (instanceBackoff m) p (map failing msgs ++ rest) =
  (flat_map (backoff_block m p) msgs ++ (run_loop (instanceBackoff m) p rest).1,
   (run_loop (instanceBackoff m) p rest).2).
Proof. apply run_loop_failing. Qed.

Lemma count_app f tr1 tr2 : count f (tr1 ++ tr2) = (count f tr1 + count f tr2)%nat.
Proof. unfold count. by rewrite List.filter_app, length_app. Qed.

Lemma count_backoff_blocks f m p msgs k :
  (∀ msg, count f (backoff_block m p msg) = k) →
  count f (flat_map (backoff_block m p) msgs) = (length msgs * k)%nat.
Proof.
  intros Hk. induction msgs as [|msg msgs IH]; [done|].
  cbn [flat_map length]. by rewrite count_app, Hk, IH.
Qed.

Lemma Run_failing_then wait p msgs rest :
  Run wait p (map failing msgs ++ rest) =
  match run_loop wait p rest with
  | (tr, None) =>
      (RWgAdd :: flat_map (λ msg, RRun :: RWait (Name (proc_cfg p)) (errorString msg)
                             :: wait (proc_cfg p) (errorString msg)) msgs ++ tr, None)
  | (tr, Some c) =>
      (RWgAdd :: flat_map (λ msg, RRun :: RWait (Name (proc_cfg p)) (errorString msg)
                             :: wait (proc_cfg p) (errorString msg)) msgs
         ++ tr ++ [RWgDone] ++ (deferred_recover p c).1,
       Some (deferred_recover p c).2)
  end.
Proof.
  unfold Run. rewrite run_loop_failing.
  destruct (run_loop wait p rest) as [tr [c|]]; simpl; [|done].
  destruct (deferred_recover p c) as [tr2 c2]. simpl.
  by rewrite <- app_assoc.
Qed.

Lemma run_loop_nil_as_canceled wait p pre rest rest' :
  run_loop wait p (pre ++ Returns None :: rest) =
  run_loop wait p (pre ++ Returns (Some context_Canceled) :: rest').
Proof.
  induction pre as [|[err|v] pre IH]; simpl; [done| |done].
  destruct (abnormal err); [|done]. by rewrite IH.
Qed.

Lemma Run_never_panics wait p returns v :
  (Run wait p returns).2 ≠ Some (Panicking v).
Proof.
  unfold Run. destruct (run_loop wait p returns) as [tr [c|]]; simpl; [|done].
  by destruct c.
Qed.

(** C3. In the run loop, a [Run] that returns exactly [context.Canceled]
    is logged and ends the loop with no call of the backoff callback; a
    [Run] that returns any other error is followed by a call of the
    callback, with the integration's configuration and that error, and by
    another invocation of [Run], without bound: after N such failures the
    callback has been called and has slept N times, and [Run] has been
    invoked N+1 times. *)
Theorem Run_restarts_until_canceled
    (wait : Config → error → list RunEvent) (m : Manager)
    (p : integrationProcess) (msgs : list string) (rest : list RunReturn) :
  let name := Name (proc_cfg p) in
  let called msg :=
    RRun :: RWait name (errorString msg) :: wait (proc_cfg p) (errorString msg) in
  Run wait p (Returns (Some context_Canceled) :: rest)
    = ([RWgAdd; RRun; RLogStopped name; RWgDone], Some Normal)
  ∧ Run wait p (map failing msgs ++ Returns (Some context_Canceled) :: rest)
    = (RWgAdd :: flat_map called msgs ++ [RRun; RLogStopped name; RWgDone], Some Normal)
  ∧ Run wait p (map failing msgs) = (RWgAdd :: flat_map called msgs ++ [RRun], None)
  ∧ (let tr := (Run (instanceBackoff m) p (map failing msgs)).1 in
     count is_RWait tr = length msgs
     ∧ count is_RSleep tr = length msgs
     ∧ count is_RRun tr = S (length msgs)).
Proof.
  intros name called. split; [done|]. split; [|split].
  - by rewrite Run_failing_then.
  - rewrite <- (app_nil_r (map failing msgs)) at 1. by rewrite Run_failing_then.
  - rewrite <- (app_nil_r (map failing msgs)).
    rewrite Run_failing_then. cbn [run_loop fst].
    change (flat_map _ msgs) with (flat_map (backoff_block m p) msgs).
    change (RWgAdd :: ?l ++ [RRun]) with ([RWgAdd] ++ l ++ [RRun]).
    rewrite !count_app.
    rewrite (count_backoff_blocks is_RWait m p msgs 1) by done.
    rewrite (count_backoff_blocks is_RSleep m p msgs 1) by done.
    rewrite (count_backoff_blocks is_RRun m p msgs 1) by done.
    cbn. lia.
Qed.

(** C5. When an invocation of [Run] panics, the panic is recovered and
    logged inside [integrationProcess.Run]; the loop is over, with no call
    of the backoff callback and no further invocation of [Run] after the
    one that panicked; and whatever the invocations do, the function never
    completes by a panic of its own, so none reaches the goroutine's caller. *)
Theorem Run_contains_panic
    (wait : Config → error → list RunEvent)
    (p : integrationProcess) (msgs : list string) (v : string) (rest : list RunReturn) :
  let name := Name (proc_cfg p) in
  let called msg :=
    RRun :: RWait name (errorString msg) :: wait (proc_cfg p) (errorString msg) in
  Run wait p (Panics v :: rest) = ([RWgAdd; RRun; RWgDone; RLogPanic v name], Some Normal)
  ∧ Run wait p (map failing msgs ++ Panics v :: rest)
    = (RWgAdd :: flat_map called msgs ++ [RRun; RWgDone; RLogPanic v name], Some Normal)
  ∧ (∀ returns v', (Run wait p returns).2 ≠ Some (Panicking v')).
Proof.
  intros name called. split; [done|]. split.
  - by rewrite Run_failing_then.
  - intros returns v'. apply Run_never_panics.
Qed.

(** C8 (amended). When the callback is [Manager.instanceBackoff], every
    invocation of [Run] that returns an error other than
    [context.Canceled] increments the abnormal-exit counter of the
    integration's name exactly once, before the log line and the sleep of
    that failure; an invocation that panics does not increment it. *)
Theorem abnormal_exit_counted_before_sleep
    (m : Manager) (p : integrationProcess) (msgs : list string)
    (v : string) (rest : list RunReturn) :
  let name := Name (proc_cfg p) in
  let stopped := (Run (instanceBackoff m) p (map failing msgs ++ Returns (Some context_Canceled) :: rest)).1 in
  let crashed := (Run (instanceBackoff m) p (map failing msgs ++ Panics v :: rest)).1 in
  stopped = RWgAdd :: flat_map (backoff_block m p) msgs ++ [RRun; RLogStopped name; RWgDone]
  ∧ count is_RCounterInc stopped = length msgs
  ∧ crashed = RWgAdd :: flat_map (backoff_block m p) msgs ++ [RRun; RWgDone; RLogPanic v name]
  ∧ count is_RCounterInc crashed = length msgs.
Proof.
  intros name stopped crashed.
  assert (Hs : stopped = RWgAdd :: flat_map (backoff_block m p) msgs ++ [RRun; RLogStopped name; RWgDone]).
  { unfold stopped. by rewrite Run_failing_then. }
  assert (Hc : crashed = RWgAdd :: flat_map (backoff_block m p) msgs ++ [RRun; RWgDone; RLogPanic v name]).
  { unfold crashed. by rewrite Run_failing_then. }
  split; [done|]. split; [|split; [done|]].
  - rewrite Hs. change (RWgAdd :: ?l ++ ?t) with ([RWgAdd] ++ l ++ t).
    rewrite !count_app, (count_backoff_blocks is_RCounterInc m p msgs 1) by done.
    cbn. lia.
  - rewrite Hc. change (RWgAdd :: ?l ++ ?t) with ([RWgAdd] ++ l ++ t).
    rewrite !count_app, (count_backoff_blocks is_RCounterInc m p msgs 1) by done.
    cbn. lia.
Qed.

(** C10. An invocation of [Run] that returns nil is treated exactly like
    one that returns [context.Canceled]: the stop is logged and the loop is
    over, with no call of the backoff callback, no further invocation and
    no increment of the abnormal-exit counter. *)
Theorem Run_nil_return_stops
    (wait : Config → error → list RunEvent) (m : Manager)
    (p : integrationProcess) (pre rest rest' : list RunReturn) :
  Run wait p (Returns None :: rest)
    = ([RWgAdd; RRun; RLogStopped (Name (proc_cfg p)); RWgDone], Some Normal)
  ∧ Run wait p (pre ++ Returns None :: rest)
    = Run wait p (pre ++ Returns (Some context_Canceled) :: rest')
  ∧ count is_RWait (Run wait p (Returns None :: rest)).1 = 0%nat
  ∧ count is_RCounterInc (Run (instanceBackoff m) p (Returns None :: rest)).1 = 0%nat.
Proof.
  split; [done|]. split; [|done].
  unfold Run. by rewrite (run_loop_nil_as_canceled wait p pre rest rest').
Qed.

(** * The handler cache *)

Lemma loadHandler_other_key integrations cache key key' made :
  key ≠ key' →
  (loadHandler integrations cache key made).1.1 !! key' = cache !! key'
  ∧ List.filter (is_call key') (loadHandler integrations cache key made).2 = [].
Proof.
  intros Hne. unfold loadHandler.
  assert (Hb : bool_decide (key = key') = false) by by apply bool_decide_eq_false.
  destruct (integrations !! key) as [p|]; simpl.
  - destruct (cache !! key) as [e|]; [destruct (decide _)|]; simpl;
      try destruct made; simpl; rewrite ?Hb, ?lookup_insert_ne by done; done.
  - by rewrite lookup_delete_ne.
Qed.

Lemma loadHandler_hit integrations cache key made p e :
  integrations !! key = Some p →
  cache !! key = Some e →
  process e = proc_addr p →
  loadHandler integrations cache key made = (cache, handler e, []).
Proof.
  intros Hp He Ha. unfold loadHandler. rewrite Hp, He.
  by destruct (decide _).
Qed.

(** After a hit is possible for [key], no later request in the sequence
    calls [MetricsHandler] for it, and each request for it is served the
    cached handler. *)
Lemma serve_all_cached rs : ∀ cache key p e,
  (∀ r, r ∈ rs → req_integrations r !! key = Some p) →
  cache !! key = Some e →
  process e = proc_addr p →
  (serve_all cache rs).1.1 !! key = Some e
  ∧ List.filter (is_call key) (serve_all cache rs).2 = []
  ∧ (∀ j r, rs !! j = Some r → integrationKey (req_name r) = key →
       (serve_all cache rs).1.2 !! j = Some (handler e)).
Proof.
  induction rs as [|r rs IH]; intros cache key p e Hreg He Ha; simpl.
  - split; [done|]. split; [done|]. intros j r Hj. by rewrite lookup_nil in Hj.
  - destruct (serve cache r) as [[cache1 h] evs] eqn:Hserve.
    destruct (serve_all cache1 rs) as [[cache2 hs] evs'] eqn:Hrest. simpl.
    assert (Hr : req_integrations r !! key = Some p) by (apply Hreg; left).
    assert (H1 : cache1 !! key = Some e ∧ List.filter (is_call key) evs = []
                 ∧ (integrationKey (req_name r) = key → h = handler e)).
    { unfold serve in Hserve.
      destruct (decide (integrationKey (req_name r) = key)) as [Hk|Hk].
      - rewrite Hk in Hserve.
        rewrite (loadHandler_hit _ _ _ _ p e) in Hserve by done.
        by inversion Hserve; subst.
      - pose proof (loadHandler_other_key (req_integrations r) cache _ key (req_made r) Hk) as [Hc Hf].
        rewrite Hserve in Hc, Hf. simpl in Hc, Hf. by rewrite Hc. }
    destruct H1 as (Hc1 & Hf1 & Hh1).
    destruct (IH cache1 key p e) as (Hc2 & Hf2 & Hh2); [|done|done|].
    { intros r' Hr'. apply Hreg. by right. }
    rewrite Hrest in Hc2, Hf2, Hh2. simpl in Hc2, Hf2, Hh2.
    split; [done|]. split.
    + by rewrite List.filter_app, Hf1, Hf2.
    + intros [|j] r' Hj Hk; simpl in *.
      * inversion Hj; subst. by rewrite Hh1.
      * by apply (Hh2 j r').
Qed.

Lemma is_made_is_call key evs :
  List.filter (is_call key) evs = [] → List.filter (is_made key) evs = [].
Proof.
  induction evs as [|ev evs IH]; [done|]. simpl.
  destruct ev as [k a [|]|]; simpl; try done; destruct (bool_decide (k = key)); try done.
Qed.

(** While the registry shows the same process under [key], a sequence of
    requests obtains a handler from its [MetricsHandler] at most once. *)
Lemma serve_all_made_once rs : ∀ cache key p,
  (∀ r, r ∈ rs → req_integrations r !! key = Some p) →
  (length (List.filter (is_made key) (serve_all cache rs).2) ≤ 1)%nat.
Proof.
  induction rs as [|r rs IH]; intros cache key p Hreg; simpl; [lia|].
  destruct (serve cache r) as [[cache1 h] evs] eqn:Hserve.
  destruct (serve_all cache1 rs) as [[cache2 hs] evs'] eqn:Hrest. simpl.
  assert (Hr : req_integrations r !! key = Some p) by (apply Hreg; left).
  assert (Hrs : ∀ r', r' ∈ rs → req_integrations r' !! key = Some p).
  { intros r' Hr'. apply Hreg. by right. }
  rewrite List.filter_app, length_app.
  pose proof (IH cache1 key p Hrs) as IH1. rewrite Hrest in IH1. simpl in IH1.
  unfold serve in Hserve.
  destruct (decide (integrationKey (req_name r) = key)) as [Hk|Hk].
  - rewrite Hk in Hserve. unfold loadHandler in Hserve. rewrite Hr in Hserve.
    assert (Hnew : ∀ n,
        (<[key := {| handler := IntegrationHandler n; process := proc_addr p |}]> cache,
         IntegrationHandler n, [WMetricsHandler key (proc_addr p) true]) = (cache1, h, evs) →
        (length (List.filter (is_made key) evs) + length (List.filter (is_made key) evs') ≤ 1)%nat).
    { intros n Heq. injection Heq as <- <- <-.
      destruct (serve_all_cached rs (<[key := {| handler := IntegrationHandler n; process := proc_addr p |}]> cache)
                  key p {| handler := IntegrationHandler n; process := proc_addr p |})
        as (_ & Hf & _); [done|by rewrite lookup_insert_eq|done|].
      rewrite Hrest in Hf. simpl in Hf.
      rewrite (is_made_is_call _ _ Hf). simpl. rewrite bool_decide_eq_true_2 by done.
      simpl. lia. }
    destruct (cache !! key) as [e|]; [destruct (decide _)|].
    all: try (destruct (req_made r) as [hid|err]; [by apply (Hnew hid)|]).
    all: simplify_eq; simpl; lia.
  - pose proof (loadHandler_other_key (req_integrations r) cache _ key (req_made r) Hk) as [_ Hf].
    rewrite Hserve in Hf. simpl in Hf. rewrite (is_made_is_call _ _ Hf). simpl. lia.
Qed.

(** C6 (amended). While the registry shows the same process under a key,
    two consecutive requests for it are served the identical handler, the
    second from the cache without calling [MetricsHandler], unless the
    first called [MetricsHandler] and the call failed (then nothing was
    cached); and over any sequence of such requests [MetricsHandler]
    returns a handler at most once. A request that finds a cache entry
    recorded for another process does not serve that entry: it calls
    [MetricsHandler] of the process now registered, and serves and caches
    the handler it returns, or serves the internal-error handler and leaves
    the cache as it is when the call fails. *)
Theorem handler_cache_follows_process
    (integrations : gmap string integrationProcess)
    (cache : gmap string handlerCacheEntry) (key : string)
    (p : integrationProcess) (made1 made2 : result nat) :
  integrations !! key = Some p →
  let r1 := loadHandler integrations cache key made1 in
  (WMetricsHandler key (proc_addr p) false ∉ r1.2 →
   loadHandler integrations r1.1.1 key made2 = (r1.1.1, r1.1.2, []))
  ∧ (∀ rs cache0, (∀ r, r ∈ rs → req_integrations r !! key = Some p) →
       (length (List.filter (is_made key) (serve_all cache0 rs).2) ≤ 1)%nat)
  ∧ (∀ stale, cache !! key = Some stale → process stale ≠ proc_addr p →
       r1 = match made1 with
            | Ok h =>
                (<[key := {| handler := IntegrationHandler h; process := proc_addr p |}]> cache,
                 IntegrationHandler h, [WMetricsHandler key (proc_addr p) true])
            | Err _ =>
                (cache, internalServiceError,
                 [WMetricsHandler key (proc_addr p) false; WLogError (Name (proc_cfg p))])
            end).
Proof.
  intros Hp r1. split; [|split].
  - unfold r1, loadHandler. rewrite Hp.
    destruct (cache !! key) as [e|] eqn:He; [destruct (decide (process e = proc_addr p))|].
    + intros _. cbn [fst snd]. rewrite He. by rewrite decide_True.
    + destruct made1 as [h|err]; cbn [fst snd].
      * intros _. rewrite lookup_insert_eq. cbn [process handler]. by rewrite decide_True.
      * intros Hno. exfalso. apply Hno. left.
    + destruct made1 as [h|err]; cbn [fst snd].
      * intros _. rewrite lookup_insert_eq. cbn [process handler]. by rewrite decide_True.
      * intros Hno. exfalso. apply Hno. left.
  - intros rs cache0 Hrs. by apply (serve_all_made_once rs cache0 key p).
  - intros stale Hs Hne. unfold r1, loadHandler. rewrite Hp, Hs.
    rewrite decide_False by done. by destruct made1.
Qed.

(** * Further properties of the run loop *)

Lemma run_loop_counts m p returns :
  let tr := (run_loop (instanceBackoff m) p returns).1 in
  count is_RWgAdd tr = 0%nat ∧ count is_RWgDone tr = 0%nat
  ∧ count is_RRun tr = S (count is_RSleep tr)
  ∧ count is_RWait tr = count is_RSleep tr
  ∧ count is_RCounterInc tr = count is_RSleep tr.
Proof.
  induction returns as [|[err|v] returns IH]; cbn [run_loop]; [done| |done].
  destruct (abnormal err) as [e|]; [|done].
  destruct (run_loop (instanceBackoff m) p returns) as [tr c]. cbn [fst] in *.
  destruct IH as (H1 & H2 & H3 & H4 & H5).
  unfold count in *. cbn. rewrite H1, H2, H3, H4, H5. done.
Qed.

Lemma run_loop_completion wait p returns :
  (run_loop wait p returns).2 = if forallb restarts returns then None else Some
    match find (λ r, negb (restarts r)) returns with
    | Some (Panics v) => Panicking v
    | _ => Normal
    end.
Proof.
  induction returns as [|[err|v] returns IH]; cbn [run_loop forallb restarts find]; [done| |done].
  destruct (abnormal err) as [e|]; cbn [negb andb]; [|done].
  destruct (run_loop wait p returns) as [tr c]. by cbn [snd] in *.
Qed.

(** X15. Whatever the invocations of the integration do, the run loop
    registers once with the wait group, as its first action, and
    deregisters exactly when it is over, once and as part of its
    completion; it is over exactly when some invocation ends otherwise
    than by an error that is not [context.Canceled], and it then completes
    normally. While every invocation fails that way, the loop goes on and
    stays registered, so [Stop] keeps waiting for it. *)
Theorem Run_wait_group (m : Manager) (p : integrationProcess) (returns : list RunReturn) :
  let r := Run (instanceBackoff m) p returns in
  head r.1 = Some RWgAdd
  ∧ count is_RWgAdd r.1 = 1%nat
  ∧ r.2 = (if forallb restarts returns then None else Some Normal)
  ∧ count is_RWgDone r.1 = (if forallb restarts returns then 0 else 1)%nat.
Proof.
  intros r. unfold r, Run. clear r.
  pose proof (run_loop_counts m p returns) as (H1 & H2 & _).
  pose proof (run_loop_completion (instanceBackoff m) p returns) as Hc.
  destruct (run_loop (instanceBackoff m) p returns) as [tr [c|]]; cbn [fst snd] in *.
  - destruct (forallb restarts returns); [done|].
    destruct c; cbn [deferred_Done deferred_recover fst snd head];
      (split; [done|]); change (RWgAdd :: ?l) with ([RWgAdd] ++ l);
      rewrite !count_app, H1, H2; cbn; done.
  - destruct (forallb restarts returns); [|done].
    cbn [fst snd head]. split; [done|]. change (RWgAdd :: ?l) with ([RWgAdd] ++ l).
    by rewrite !count_app, H1, H2.
Qed.

(** X16. With [Manager.instanceBackoff] as the callback, and whatever the
    invocations of the integration do, the run loop has at every moment
    invoked [Run] once more than it has slept, and each sleep goes with
    exactly one call of the callback and one increment of the abnormal-exit
    counter: the integration is never invoked twice without a backoff in
    between, and never sleeps without having failed. *)
Theorem Run_invocations_and_sleeps (m : Manager) (p : integrationProcess)
    (returns : list RunReturn) :
  let tr := (Run (instanceBackoff m) p returns).1 in
  count is_RRun tr = S (count is_RSleep tr)
  ∧ count is_RWait tr = count is_RSleep tr
  ∧ count is_RCounterInc tr = count is_RSleep tr.
Proof.
  intros tr. unfold tr, Run. clear tr.
  pose proof (run_loop_counts m p returns) as (_ & _ & H3 & H4 & H5).
  destruct (run_loop (instanceBackoff m) p returns) as [tr [c|]]; cbn [fst] in *.
  - destruct c; cbn [deferred_Done deferred_recover fst];
      change (RWgAdd :: ?l) with ([RWgAdd] ++ l);
      rewrite !count_app, H3, H4, H5; cbn; lia.
  - change (RWgAdd :: ?l) with ([RWgAdd] ++ l).
    rewrite !count_app, H3, H4, H5. cbn. lia.
Qed.

(** * Further properties of the handler cache *)

(** X17. A request for a key that is not registered is answered with the
    not-found handler, calls no [MetricsHandler], and evicts the cache
    entry of the key, leaving the others; so when the key is registered
    again the next request asks the process for a handler, whatever had
    been cached for the key before. *)
Theorem loadHandler_not_found_evicts
    (integrations integrations' : gmap string integrationProcess)
    (cache : gmap string handlerCacheEntry) (key : string)
    (made : result nat) (p : integrationProcess) (h : nat) :
  integrations !! key = None →
  integrations' !! key = Some p →
  loadHandler integrations cache key made = (delete key cache, NotFoundHandler, [])
  ∧ loadHandler integrations' (delete key cache) key (Ok h)
    = (<[key := {| handler := IntegrationHandler h; process := proc_addr p |}]> cache,
       IntegrationHandler h, [WMetricsHandler key (proc_addr p) true]).
Proof.
  intros Hnone Hp. unfold loadHandler. rewrite Hnone, Hp, lookup_delete_eq.
  by rewrite insert_delete_eq.
Qed.

Lemma loadHandler_real integrations cache key made :
  cache_real cache →
  let r := loadHandler integrations cache key made in
  cache_real r.1.1
  ∧ (r.1.2 = NotFoundHandler ↔ integrations !! key = None)
  ∧ (r.1.2 = internalServiceError →
     (∃ e, made = Err e) ∧ ∃ p, integrations !! key = Some p
       ∧ r.2 = [WMetricsHandler key (proc_addr p) false; WLogError (Name (proc_cfg p))]).
Proof.
  intros Hreal. unfold loadHandler.
  assert (Hins : ∀ n a, cache_real (<[key := {| handler := IntegrationHandler n; process := a |}]> cache)).
  { intros n a k e Hk. apply lookup_insert_Some in Hk as [[_ <-]|[_ Hk]]; [by eexists|].
    by apply (Hreal k). }
  destruct (integrations !! key) as [p|] eqn:Hp.
  - destruct (cache !! key) as [e|] eqn:He; [destruct (decide (process e = proc_addr p))|].
    + destruct (Hreal _ _ He) as [hid Hn]. cbn. rewrite Hn. by repeat split.
    + destruct made as [hid|err]; cbn; repeat split; try done; eauto.
    + destruct made as [hid|err]; cbn; repeat split; try done; eauto.
  - cbn. repeat split; try done.
    intros k e Hk. apply lookup_delete_Some in Hk as [_ Hk]. by apply (Hreal k).
Qed.

Lemma serve_all_real rs : ∀ cache,
  cache_real cache →
  cache_real (serve_all cache rs).1.1
  ∧ ∀ j req, rs !! j = Some req →
      ∃ h, (serve_all cache rs).1.2 !! j = Some h
        ∧ (h = NotFoundHandler
           ↔ req_integrations req !! integrationKey (req_name req) = None)
        ∧ (h = internalServiceError → ∃ e, req_made req = Err e).
Proof.
  induction rs as [|r rs IH]; intros cache Hreal; cbn [serve_all].
  - split; [done|]. intros j req Hj. by rewrite lookup_nil in Hj.
  - pose proof (loadHandler_real (req_integrations r) cache (integrationKey (req_name r))
                  (req_made r) Hreal) as (H1 & H2 & H3).
    fold (serve cache r) in H1, H2, H3.
    destruct (serve cache r) as [[cache1 h] evs]. cbn [fst snd] in *.
    destruct (IH cache1 H1) as [Hr Hall].
    destruct (serve_all cache1 rs) as [[cache2 hs] evs']. cbn [fst snd] in *.
    split; [done|]. intros [|j] req Hj; cbn in *.
    + injection Hj as <-. exists h. split; [done|]. split; [done|].
      intros Hh. by apply H3.
    + by apply Hall.
Qed.

(** X18. Starting from the empty cache of [WireAPI], and whatever the
    requests and the registry they find: a request is answered with the
    not-found handler exactly when its integration is not registered, and
    with the internal-error handler only when [MetricsHandler] was called
    and failed; the cache never holds one of these two handlers, only
    handlers that integrations returned. *)
Theorem serve_all_responses (rs : list Request) :
  cache_real (serve_all ∅ rs).1.1
  ∧ ∀ j req, rs !! j = Some req →
      ∃ h, (serve_all ∅ rs).1.2 !! j = Some h
        ∧ (h = NotFoundHandler
           ↔ req_integrations req !! integrationKey (req_name req) = None)
        ∧ (h = internalServiceError → ∃ e, req_made req = Err e).
Proof.
  apply serve_all_real. intros key e He. by rewrite lookup_empty in He.
Qed.

(** X19. Requests for other integrations leave the cached handler of an
    integration alone and do not call its [MetricsHandler]: over any
    sequence of requests none of which is for the key, the cache entry of
    the key is what it was. *)
Theorem serve_all_other_keys (rs : list Request)
    (cache : gmap string handlerCacheEntry) (key : string) :
  (∀ r, r ∈ rs → integrationKey (req_name r) ≠ key) →
  (serve_all cache rs).1.1 !! key = cache !! key
  ∧ List.filter (is_call key) (serve_all cache rs).2 = [].
Proof.
  revert cache. induction rs as [|r rs IH]; intros cache Hrs; cbn [serve_all]; [done|].
  pose proof (loadHandler_other_key (req_integrations r) cache (integrationKey (req_name r))
                key (req_made r)) as [H1 H2]; [apply Hrs; left|].
  fold (serve cache r) in H1, H2.
  destruct (serve cache r) as [[cache1 h] evs]. cbn [fst snd] in *.
  destruct (IH cache1) as [H3 H4]; [intros r' Hr'; apply Hrs; by right|].
  destruct (serve_all cache1 rs) as [[cache2 hs] evs']. cbn [fst snd] in *.
  split; [congruence|]. by rewrite List.filter_app, H2, H4.
Qed.

(** * The theorems at sample inputs *)

Lemma manager_a_ok : Manager_ok manager_a.
Proof.
  unfold Manager_ok. cbn [integrations next_addr manager_a]. split.
  - intros k p Hk. apply lookup_singleton_Some in Hk as [_ <-]. simpl. lia.
  - intros k1 k2 p1 p2 H1 H2 _.
    apply lookup_singleton_Some in H1 as [<- _].
    by apply lookup_singleton_Some in H2 as [<- _].
Qed.

(** The sample manager is the one [NewManager] returns for the
    configuration with the single integration [a]. *)
Lemma NewManager_manager_a :
  ∃ tr, NewManager structural_ManagerConfig structural_Config sample_DefaultConfig
          (sample_ManagerConfig [config_a]) sample_im sample_validator (Ok "host")
        = Ok (manager_a, tr).
Proof. eexists. vm_compute. reflexivity. Qed.

Lemma Stop_manager_a :
  Stop manager_a = manager_stopped.
Proof. reflexivity. Qed.

(** Witness of C1: [a] runs, and the new configuration only has [bad]. *)
Lemma ApplyConfig_registry_witness :
  let c := sample_ManagerConfig [config_bad] in
  let r := ApplyConfig structural_ManagerConfig structural_Config sample_DefaultConfig manager_a c in
  structural_ManagerConfig (cfg manager_a) c = false
  ∧ ctx_done manager_a = false
  ∧ EvDeleteConfig "integration/a" ∈ r.1.2
  ∧ EvStop 0 ∈ r.1.2
  ∧ integrations r.1.1 !! "integration/a" = None.
Proof.
  intros c r. split; [reflexivity|]. split; [reflexivity|].
  pose proof (ApplyConfig_registry structural_ManagerConfig structural_Config
                sample_DefaultConfig manager_a c eq_refl eq_refl) as (_ & _ & H).
  exact (H "integration/a" process_a eq_refl eq_refl).
Defined.

(** Counterexample to C1 as stated: [bad] is present and enabled in the
    new configuration, and its key is not in the registry. *)
Lemma ApplyConfig_registry_misses_enabled :
  let c := sample_ManagerConfig [config_bad] in
  let r := ApplyConfig structural_ManagerConfig structural_Config sample_DefaultConfig manager_a c in
  config_bad ∈ Integrations c
  ∧ Enabled (CommonConfig config_bad) = true
  ∧ r.2 = Some (errorString "not all integrations were correctly updated")
  ∧ integrations r.1.1 !! integrationKey (Name config_bad) = None.
Proof.
  intros c r. split; [left|]. split; [reflexivity|]. split; vm_compute; reflexivity.
Qed.

(** [ApplyConfig] does not read [Enabled] (only [ApplyDefaults] does): an
    entry that is not enabled is built, started and registered. *)
Example disabled_entry_is_started :
  let c := sample_ManagerConfig [config_off] in
  let r := ApplyConfig structural_ManagerConfig structural_Config sample_DefaultConfig manager_a c in
  Enabled (CommonConfig config_off) = false
  ∧ EvGo "integration/off" 1 ∈ r.1.2
  ∧ proc_cfg <$> integrations r.1.1 !! "integration/off" = Some config_off.
Proof.
  intros c r. split; [reflexivity|]. split; [|vm_compute; reflexivity].
  vm_compute. right. left.
Qed.

(** Witness of C2: [a] runs; first with its entry unchanged beside a new
    entry, then with its entry changed: the process at address 0 is
    stopped, the integration of the changed entry is built, and a process
    at a fresh address is started and registered under the key. *)
Lemma ApplyConfig_process_identity_witness :
  let unchanged := sample_ManagerConfig [config_a; config_bad] in
  let changed := sample_ManagerConfig [config_a'] in
  let r1 := ApplyConfig structural_ManagerConfig structural_Config sample_DefaultConfig manager_a unchanged in
  let r2 := ApplyConfig structural_ManagerConfig structural_Config sample_DefaultConfig manager_a changed in
  Manager_ok manager_a
  ∧ integrations manager_a !! "integration/a" = Some process_a
  ∧ ((EvStop 0 ∉ r1.1.2) ∧ integrations r1.1.1 !! "integration/a" = Some process_a)
  ∧ ((∃ ic t1 t2,
        ic ∈ Integrations changed ∧ integrationKey (Name ic) = "integration/a"
        ∧ structural_Config (proc_cfg process_a) ic = false
        ∧ quiet "integration/a" t1
        ∧ (EvStop 0 ∉ t1)
        ∧ match NewIntegration ic with
          | Ok i =>
              ∃ a, (1 ≤ a)%nat
                ∧ r2.1.2 = t1 ++ EvStop 0 :: EvNewIntegration (Name ic) true
                             :: EvGo "integration/a" a :: t2
                ∧ (NoDup (map (λ ic, integrationKey (Name ic)) (Integrations changed)) →
                   integrations r2.1.1 !! "integration/a"
                   = Some {| proc_addr := a; proc_cfg := ic; proc_i := i |})
          | Err _ =>
              r2.1.2 = t1 ++ EvStop 0 :: EvNewIntegration (Name ic) false
                :: EvLogError "failed to initialize integration. it will not run or be scraped" (Name ic)
                :: EvDeleteConfig "integration/a" :: t2
              ∧ (NoDup (map (λ ic, integrationKey (Name ic)) (Integrations changed)) →
                 integrations r2.1.1 !! "integration/a" = None)
          end)
     ∧ (∀ q, integrations r2.1.1 !! "integration/a" = Some q → proc_addr q ≠ 0%nat))
  ∧ r2.1.2 = [EvStop 0; EvNewIntegration "a" true; EvGo "integration/a" 1;
              EvValidate "integration/a"
                (instanceConfigForIntegration sample_DefaultConfig "host" config_a'
                   sample_integration changed) true;
              EvApplyConfig
                (instanceConfigForIntegration sample_DefaultConfig "host" config_a'
                   sample_integration changed) true]
  ∧ integrations r2.1.1 !! "integration/a"
    = Some {| proc_addr := 1; proc_cfg := config_a'; proc_i := sample_integration |}.
Proof.
  intros unchanged changed r1 r2.
  split; [exact manager_a_ok|]. split; [reflexivity|]. split; [|split; [|split]].
  - refine (proj1 (ApplyConfig_process_identity structural_ManagerConfig structural_Config
                     sample_DefaultConfig manager_a unchanged "integration/a" process_a
                     manager_a_ok eq_refl) _ _).
    + exists config_a. split; [left|reflexivity].
    + intros ic Hic Hk. apply elem_of_cons in Hic as [->|Hic]; [reflexivity|].
      apply elem_of_cons in Hic as [->|Hic]; [discriminate Hk|].
      by apply elem_of_nil in Hic.
  - refine (proj1 (proj2 (ApplyConfig_process_identity structural_ManagerConfig structural_Config
                     sample_DefaultConfig manager_a changed "integration/a" process_a
                     manager_a_ok eq_refl)) _).
    exists config_a'. split; [left|]. split; reflexivity.
  - reflexivity.
  - reflexivity.
Defined.

(** Counterexample to C2 as stated: on a stopped manager the entry of [a]
    differs from the configuration of the running process, yet the call
    does nothing: no event happens and the old process stays registered. *)
Lemma ApplyConfig_changed_entry_on_stopped_manager :
  let c := sample_ManagerConfig [config_a'] in
  let r := ApplyConfig structural_ManagerConfig structural_Config sample_DefaultConfig manager_stopped c in
  Manager_ok manager_stopped
  ∧ integrations manager_stopped !! "integration/a" = Some process_a
  ∧ Integrations c = [config_a']
  ∧ integrationKey (Name config_a') = "integration/a"
  ∧ structural_Config (proc_cfg process_a) config_a' = false
  ∧ r.1.2 = []
  ∧ integrations r.1.1 !! "integration/a" = Some process_a.
Proof.
  intros c r. split; [exact manager_a_ok|]. repeat split; reflexivity.
Qed.

(** Witness of C4: a new configuration after [Stop]. *)
Lemma ApplyConfig_after_Stop_witness :
  ctx_done manager_stopped = true
  ∧ ApplyConfig structural_ManagerConfig structural_Config sample_DefaultConfig
      manager_stopped (sample_ManagerConfig [config_a'])
    = (manager_stopped, [], Some (errorString "Manager already stopped")).
Proof.
  split; [reflexivity|].
  exact (ApplyConfig_after_Stop structural_ManagerConfig structural_Config
           sample_DefaultConfig manager_stopped (sample_ManagerConfig [config_a']) eq_refl).
Defined.

(** Counterexample to C4 as stated: after [Stop], the stored configuration
    is applied again and the call returns nil. *)
Lemma ApplyConfig_after_Stop_returns_nil :
  ctx_done manager_stopped = true
  ∧ ApplyConfig structural_ManagerConfig structural_Config sample_DefaultConfig
      manager_stopped (cfg manager_stopped)
    = (manager_stopped, [], None).
Proof. split; reflexivity. Qed.

(** Witness of C9: [a] changes and [bad] cannot be built: the new process
    of [a] is started and registered, [bad] is given up and cleaned, and
    the scrape configuration of [a] is validated and applied right after. *)
Lemma ApplyConfig_best_effort_witness :
  let c := sample_ManagerConfig [config_a'; config_bad] in
  let r := ApplyConfig structural_ManagerConfig structural_Config sample_DefaultConfig manager_a c in
  let instanceConfig :=
    instanceConfigForIntegration sample_DefaultConfig "host" config_a' sample_integration c in
  structural_ManagerConfig (cfg manager_a) c = false
  ∧ ctx_done manager_a = false
  ∧ cfg r.1.1 = c
  ∧ r.2 = Some (errorString "not all integrations were correctly updated")
  ∧ (∃ ok, EvNewIntegration "a" ok ∈ r.1.2)
  ∧ (∃ a, EvNewIntegration "a" true ∈ r.1.2 ∧ EvGo "integration/a" a ∈ r.1.2
          ∧ integrations r.1.1 !! "integration/a"
            = Some {| proc_addr := a; proc_cfg := config_a'; proc_i := sample_integration |})
  ∧ (EvNewIntegration "bad" false ∈ r.1.2 ∧ EvDeleteConfig "integration/bad" ∈ r.1.2
     ∧ integrations r.1.1 !! "integration/bad" = None)
  ∧ (∃ t1 t2, r.1.2 = t1 ++ EvValidate "integration/a" instanceConfig true
                        :: EvApplyConfig instanceConfig true :: t2).
Proof.
  intros c r instanceConfig. split; [reflexivity|]. split; [reflexivity|].
  pose proof (ApplyConfig_best_effort structural_ManagerConfig structural_Config
                sample_DefaultConfig manager_a c eq_refl eq_refl) as (H1 & H2 & H3 & H4 & _ & H6).
  assert (Hnd : NoDup (map (λ ic, integrationKey (Name ic)) (Integrations c))).
  { apply NoDup_cons. split; [|apply NoDup_singleton].
    intros Hin. apply list_elem_of_singleton in Hin. discriminate Hin. }
  split; [exact H1|]. split; [exact H2|]. split; [|split; [|split]].
  - destruct (H3 config_a') as [H|(p & Hp & Hcmp)]; [left|exact H|].
    exfalso. injection Hp as <-. discriminate Hcmp.
  - refine (H4 Hnd config_a' _ _); [left|].
    intros (p & Hp & Hcmp). injection Hp as <-. discriminate Hcmp.
  - refine (H4 Hnd config_bad _ _); [right; left|].
    intros (p & Hp & _). discriminate Hp.
  - exact (H6 "integration/a"
             {| proc_addr := 1; proc_cfg := config_a'; proc_i := sample_integration |} eq_refl).
Defined.

(** Counterexample to C9 as stated: on a stopped manager the call returns
    an error although no sub-step failed (none ran), and the new
    configuration is not stored. *)
Lemma ApplyConfig_error_without_failure :
  let c := sample_ManagerConfig [config_a'] in
  let r := ApplyConfig structural_ManagerConfig structural_Config sample_DefaultConfig manager_stopped c in
  r.2 = Some (errorString "Manager already stopped")
  ∧ existsb is_failure r.1.2 = false
  ∧ Integrations (cfg r.1.1) = [config_a]
  ∧ Integrations c = [config_a'].
Proof. intros c r. repeat split; reflexivity. Qed.

(** Witness of C7: the integration [a] declares the job [b] on [/metrics]. *)
Lemma instanceConfigForIntegration_targets_witness :
  plain "a" ∧ Forall plain ["metrics"]
  ∧ ∃ sc, inst_ScrapeConfigs
            (instanceConfigForIntegration sample_DefaultConfig "host" config_a
               sample_integration (sample_ManagerConfig [config_a])) !! 0%nat = Some sc
      ∧ sc_JobName sc = "integrations/b"
      ∧ sc_MetricsPath sc = "/integrations/a/metrics".
Proof.
  assert (Ha : plain "a") by (by repeat split).
  assert (Hm : Forall plain ["metrics"]) by (by repeat constructor).
  split; [exact Ha|]. split; [exact Hm|].
  destruct (instanceConfigForIntegration_targets sample_DefaultConfig "host" config_a
              sample_integration (sample_ManagerConfig [config_a])) as (_ & _ & H).
  destruct (H 0%nat {| JobName := "b"; MetricsPath := "/metrics" |} eq_refl)
    as (sc & Hsc & Hjob & _ & Hpath).
  exists sc. split; [exact Hsc|]. split; [exact Hjob|].
  apply (Hpath ["metrics"] Ha); [done|exact Hm|by right].
Defined.

(** Counterexample to C7 as stated: the job name of the integration [a],
    whose key is [integration/a], is [integrations/b], which carries neither
    the key nor the name; and the path is not the declared path appended to
    [/integrations/a/]. *)
Lemma instanceConfigForIntegration_job_not_under_key :
  let instanceCfg :=
    instanceConfigForIntegration sample_DefaultConfig "host" config_a
      sample_integration (sample_ManagerConfig [config_a]) in
  map sc_JobName (inst_ScrapeConfigs instanceCfg) = ["integrations/b"]
  ∧ integrationKey (Name config_a) = "integration/a"
  ∧ String.prefix (integrationKey (Name config_a)) "integrations/b" = false
  ∧ String.prefix ("integrations/" +:+ Name config_a) "integrations/b" = false
  ∧ map sc_MetricsPath (inst_ScrapeConfigs instanceCfg) = ["/integrations/a/metrics"]
  ∧ "/integrations/" +:+ Name config_a +:+ "/" +:+ "/metrics" = "/integrations/a//metrics".
Proof. intros instanceCfg. repeat split; reflexivity. Qed.

(** Counterexample to C8 as stated: an invocation that panics is a
    failure of the run loop other than a cancellation, and the counter is
    not incremented. *)
Lemma panic_is_not_counted :
  Run (instanceBackoff manager_a) process_a [Panics "boom"]
    = ([RWgAdd; RRun; RWgDone; RLogPanic "boom" "a"], Some Normal)
  ∧ count is_RCounterInc (Run (instanceBackoff manager_a) process_a [Panics "boom"]).1 = 0%nat.
Proof. split; reflexivity. Qed.

(** Witness of C6: two requests for [a]; the second is served from the
    cache although its own call of [MetricsHandler] would fail. *)
Lemma handler_cache_follows_process_witness :
  let registry : gmap string integrationProcess := {[ "integration/a" := process_a ]} in
  let first := loadHandler registry ∅ "integration/a" (Ok 7%nat) in
  registry !! "integration/a" = Some process_a
  ∧ first.1.2 = IntegrationHandler 7
  ∧ loadHandler registry first.1.1 "integration/a" (Err (errorString "no handler"))
    = (first.1.1, IntegrationHandler 7, []).
Proof.
  intros registry first. split; [reflexivity|]. split; [reflexivity|].
  refine (proj1 (handler_cache_follows_process registry ∅ "integration/a" process_a
                   (Ok 7%nat) (Err (errorString "no handler")) eq_refl) _).
  intros Hin. apply elem_of_cons in Hin as [Hin|Hin]; [discriminate Hin|].
  by apply elem_of_nil in Hin.
Defined.

(** Counterexample to C6 as stated: two consecutive requests find the same
    process; [MetricsHandler] fails for the first and succeeds for the
    second, so the two are served different handlers and [MetricsHandler]
    is called twice for one process. *)
Lemma consecutive_requests_differ :
  let registry : gmap string integrationProcess := {[ "integration/a" := process_a ]} in
  let r1 := {| req_integrations := registry; req_name := "a";
               req_made := Err (errorString "no handler") |} in
  let r2 := {| req_integrations := registry; req_name := "a"; req_made := Ok 7%nat |} in
  (serve_all ∅ [r1; r2]).1.2 = [internalServiceError; IntegrationHandler 7]
  ∧ (serve_all ∅ [r1; r2]).2
    = [ WMetricsHandler "integration/a" 0 false; WLogError "a";
        WMetricsHandler "integration/a" 0 true ].
Proof. intros registry r1 r2. split; vm_compute; reflexivity. Qed.

(** * The further theorems at sample inputs *)

Lemma ApplyConfig_again_witness :
  let c := sample_ManagerConfig [config_a'; config_bad] in
  let m' := (ApplyConfig structural_ManagerConfig structural_Config sample_DefaultConfig
               manager_a c).1.1 in
  structural_ManagerConfig c c = true
  ∧ (ApplyConfig structural_ManagerConfig structural_Config sample_DefaultConfig m' c).1
    = (m', []).
Proof.
  intros c m'. split; [reflexivity|].
  exact (proj1 (ApplyConfig_again structural_ManagerConfig structural_Config
                  sample_DefaultConfig manager_a c eq_refl)).
Defined.

Lemma ApplyConfig_applies_validated_witness :
  let c := sample_ManagerConfig [config_a'; config_bad] in
  let applied := instanceConfigForIntegration sample_DefaultConfig "host" config_a'
                   sample_integration c in
  let r := ApplyConfig structural_ManagerConfig structural_Config sample_DefaultConfig
             manager_a c in
  EvApplyConfig applied true ∈ r.1.2
  ∧ ∃ k p, integrations r.1.1 !! k = Some p
      ∧ shouldCollect c p = true
      ∧ validator manager_a
          (instanceConfigForIntegration sample_DefaultConfig (hostname manager_a)
             (proc_cfg p) (proc_i p) c) = (applied, None)
      ∧ (true = true ↔ im_ApplyConfig (im manager_a) applied = None).
Proof.
  intros c applied r.
  assert (Hin : EvApplyConfig applied true ∈ r.1.2) by (vm_compute; do 7 right; left).
  split; [exact Hin|].
  exact (ApplyConfig_applies_validated structural_ManagerConfig structural_Config
           sample_DefaultConfig manager_a c applied true Hin).
Defined.

Lemma ApplyConfig_failed_integration_cleaned_witness :
  let c := sample_ManagerConfig [config_a'; config_bad] in
  let r := ApplyConfig structural_ManagerConfig structural_Config sample_DefaultConfig
             manager_a c in
  EvNewIntegration "bad" false ∈ r.1.2
  ∧ EvDeleteConfig "integration/bad" ∈ r.1.2
  ∧ r.2 = Some (errorString "not all integrations were correctly updated").
Proof.
  intros c r.
  assert (Hin : EvNewIntegration "bad" false ∈ r.1.2) by (vm_compute; do 3 right; left).
  split; [exact Hin|].
  exact (ApplyConfig_failed_integration_cleaned structural_ManagerConfig structural_Config
           sample_DefaultConfig manager_a c "bad" Hin).
Defined.

Lemma ApplyConfig_live_is_registered_witness :
  let c := sample_ManagerConfig [config_a'; config_bad] in
  let r := ApplyConfig structural_ManagerConfig structural_Config sample_DefaultConfig
             manager_a c in
  Manager_ok manager_a
  ∧ ((("integration/a", 1%nat) ∈ live_after (registered (integrations manager_a)) r.1.2)
     ↔ ∃ q, integrations r.1.1 !! "integration/a" = Some q ∧ proc_addr q = 1%nat).
Proof.
  intros c r. split; [exact manager_a_ok|].
  exact (ApplyConfig_live_is_registered structural_ManagerConfig structural_Config
           sample_DefaultConfig manager_a c "integration/a" 1 manager_a_ok).
Defined.

Lemma ApplyConfig_registry_reflects_config_witness :
  let c := sample_ManagerConfig [config_a'; config_bad] in
  let p := {| proc_addr := 1; proc_cfg := config_a'; proc_i := sample_integration |} in
  let r := ApplyConfig structural_ManagerConfig structural_Config sample_DefaultConfig
             manager_a c in
  structural_ManagerConfig (cfg manager_a) c = false
  ∧ ctx_done manager_a = false
  ∧ integrations r.1.1 !! "integration/a" = Some p
  ∧ ((proc_cfg p ∈ Integrations c ∧ integrationKey (Name (proc_cfg p)) = "integration/a")
     ∨ (integrations manager_a !! "integration/a" = Some p
        ∧ (∃ ic, ic ∈ Integrations c ∧ integrationKey (Name ic) = "integration/a")
        ∧ ∀ ic, ic ∈ Integrations c → integrationKey (Name ic) = "integration/a" →
            structural_Config (proc_cfg p) ic = true)).
Proof.
  intros c p r.
  assert (Hp : integrations r.1.1 !! "integration/a" = Some p) by (vm_compute; reflexivity).
  split; [reflexivity|]. split; [reflexivity|]. split; [exact Hp|].
  exact (ApplyConfig_registry_reflects_config structural_ManagerConfig structural_Config
           sample_DefaultConfig manager_a c "integration/a" p eq_refl eq_refl Hp).
Defined.

Lemma reachable_well_formed_witness :
  reachable structural_ManagerConfig structural_Config sample_DefaultConfig manager_a
  ∧ Manager_ok manager_a ∧ key_consistent (integrations manager_a).
Proof.
  assert (Hr : reachable structural_ManagerConfig structural_Config sample_DefaultConfig
                 manager_a).
  { destruct NewManager_manager_a as [tr Htr].
    exact (reachable_NewManager _ _ _ _ _ _ _ _ _ Htr). }
  split; [exact Hr|].
  exact (reachable_well_formed structural_ManagerConfig structural_Config
           sample_DefaultConfig manager_a Hr).
Defined.

Lemma ApplyConfig_starts_fresh_witness :
  let c := sample_ManagerConfig [config_a'; config_bad] in
  let r := ApplyConfig structural_ManagerConfig structural_Config sample_DefaultConfig
             manager_a c in
  EvGo "integration/a" 1 ∈ r.1.2
  ∧ (next_addr manager_a ≤ 1 < next_addr r.1.1)%nat.
Proof.
  intros c r.
  assert (Hin : EvGo "integration/a" 1 ∈ r.1.2) by (vm_compute; do 2 right; left).
  split; [exact Hin|].
  exact (ApplyConfig_starts_fresh structural_ManagerConfig structural_Config
           sample_DefaultConfig manager_a c "integration/a" 1 Hin).
Defined.

Lemma loadHandler_not_found_evicts_witness :
  let registry : gmap string integrationProcess := {[ "integration/a" := process_a ]} in
  let cache : gmap string handlerCacheEntry :=
    {[ "integration/a" := {| handler := IntegrationHandler 3; process := 0 |} ]} in
  (∅ : gmap string integrationProcess) !! "integration/a" = None
  ∧ registry !! "integration/a" = Some process_a
  ∧ loadHandler ∅ cache "integration/a" (Ok 4%nat)
    = (delete "integration/a" cache, NotFoundHandler, [])
  ∧ loadHandler registry (delete "integration/a" cache) "integration/a" (Ok 5%nat)
    = (<["integration/a" := {| handler := IntegrationHandler 5; process := 0 |}]> cache,
       IntegrationHandler 5, [WMetricsHandler "integration/a" 0 true]).
Proof.
  intros registry cache. split; [reflexivity|]. split; [reflexivity|].
  exact (loadHandler_not_found_evicts ∅ registry cache "integration/a" (Ok 4%nat)
           process_a 5 eq_refl eq_refl).
Defined.

Lemma serve_all_other_keys_witness :
  let registry : gmap string integrationProcess := {[ "integration/a" := process_a ]} in
  let cache : gmap string handlerCacheEntry :=
    {[ "integration/a" := {| handler := IntegrationHandler 3; process := 0 |} ]} in
  let rs := [ {| req_integrations := registry; req_name := "b"; req_made := Ok 9%nat |} ] in
  (∀ r, r ∈ rs → integrationKey (req_name r) ≠ "integration/a")
  ∧ (serve_all cache rs).1.1 !! "integration/a" = cache !! "integration/a".
Proof.
  intros registry cache rs.
  assert (H : ∀ r, r ∈ rs → integrationKey (req_name r) ≠ "integration/a").
  { intros r Hr. apply list_elem_of_singleton in Hr as ->. discriminate. }
  split; [exact H|].
  exact (proj1 (serve_all_other_keys rs cache "integration/a" H)).
Defined.
